(** * get_list.c of libgtftk: listing the distinct values of a key

    A shallow embedding of [pygtftk/src/libgtftk/command/get_list.c]:
    the callback [action_list], the libc tree walk [twalk] that drives it,
    and the four exported functions [get_feature_list], [get_seqid_list],
    [get_attribute_list] and [get_attribute_values_list].

    The C code accumulates its result through the global pointer [vret];
    the embedding keeps that pointer, the heap of tables it points into and
    the global [column] table in an explicit program state, threaded by a
    small state monad whose second outcome stands for undefined behaviour
    (a NULL or out-of-bounds access). *)

From Stdlib Require Import ZArith String DecimalString Sorted Permutation.
From Stdlib Require Import OrderedTypeEx.
From Stdlib Require DecimalFacts DecimalPos DecimalZ.
From stdpp Require Import base list strings option sorting.

#[local] Open Scope Z_scope.

(** ** Machine integers and the allocator's unit *)

(** The C type [int] is 32 bits wide; quantities of that type are kept in
    [Z] and the places where the code needs them to fit are checked. *)
Definition INT_MAX : Z := 2147483647.

(** Size in bytes of a pointer, the element type of every array the code
    allocates, on the 64-bit platforms the library is built for. *)
Definition sizeof_ptr : Z := 8.

(** ** Data model *)

(** The payload of an index node: the code reads [token] and [nb_row]. *)
Module ROW_LIST.
Record t := { token : string; nb_row : Z }.
End ROW_LIST.

(** The binary search tree of <search.h>: each node holds a pointer to its
    key (a [ROW_LIST]) and two children; [Null] is the NULL pointer. *)
Inductive tree : Type :=
| Null
| Node (left : tree) (key : ROW_LIST.t) (right : tree).

(** The visit kinds of <search.h>, in the order of the enum. *)
Inductive VISIT : Type := preorder | postorder | endorder | leaf.

(** The result table: [size] rows, each an array of strings. A row that
    has not been allocated yet (a NULL pointer after [bookmem]) is the row
    of no field. *)
Module TTEXT.
Record t := { size : Z; data : list (list string) }.
End TTEXT.

Module STRING_LIST.
Record t := { list : list string; nb : Z }.
End STRING_LIST.

Module INDEX_ID.
Record t := { column : Z; index_rank : Z }.
End INDEX_ID.

(** Modelled from the spec: the dataset representation, which libgtftk.h
    declares and get_list.c only passes on to its collaborators. A dataset
    is a sequence of rows; a row has its column fields (among them seqid
    and feature) and its attributes, each a name with a value. *)
Module GTF_ROW.
Record t := { seqid : string; feature : string;
              attributes : list (string * string) }.
End GTF_ROW.

Module GTF_DATA.
Record t := { data : list GTF_ROW.t }.
End GTF_DATA.

(** An index of a column: the code reads [data], the root of the tree;
    [key] and [gtf_data] say what the index is an index of. *)
Module INDEX.
Record t := { key : string; data : tree; gtf_data : GTF_DATA.t }.
End INDEX.

(** A column of the global [column] table: the code reads [index]. *)
Module COLUMN.
Record t := { name : string; index : list INDEX.t }.
End COLUMN.

(** ** Program state *)

(** [column] is the global table of get_list.c's [extern COLUMN **column];
    [heap] holds every TTEXT allocated so far, an address being a position
    in it; [vret] is the global accumulator, NULL before the first call. *)
Record state : Type := {
  column : list COLUMN.t;
  heap : list TTEXT.t;
  vret : option nat
}.

Definition set_column (c : list COLUMN.t) (s : state) : state :=
  {| column := c; heap := heap s; vret := vret s |}.

Definition set_heap (h : list TTEXT.t) (s : state) : state :=
  {| column := column s; heap := h; vret := vret s |}.

Definition set_vret (p : option nat) (s : state) : state :=
  {| column := column s; heap := heap s; vret := p |}.

(** ** The monad of C computations *)

Inductive outcome (A : Type) : Type :=
| Returns (a : A) (s : state)
| Undefined.
Arguments Returns {A} a s.
Arguments Undefined {A}.

Definition M (A : Type) : Type := state → outcome A.

#[global] Instance M_ret : MRet M := λ A a s, Returns a s.

#[global] Instance M_bind : MBind M := λ A B f m s,
  match m s with
  | Returns a s' => f a s'
  | Undefined => Undefined
  end.

(** Lifting of a partial read: [None] is an access the C standard leaves
    undefined. *)
Definition defined {A} (o : option A) : M A := λ s,
  match o with
  | Some a => Returns a s
  | None => Undefined
  end.

(** [a[i]] for an [int] index. *)
Definition at_int {A} (a : list A) (i : Z) : option A :=
  if decide (0 ≤ i) then a !! Z.to_nat i else None.

(** [a[i] = x] for an [int] index. *)
Definition store_int {A} (a : list A) (i : Z) (x : A) : option (list A) :=
  if decide (0 ≤ i < Z.of_nat (length a)) then Some (<[Z.to_nat i := x]> a)
  else None.

(** ** The allocator

    [bookmem], [rebookmem] and [dupstring] are the library's wrappers of
    calloc, realloc and strdup. They are taken as an allocator that
    always satisfies a request whose size fits the [int] parameter that
    get_list.c declares for them. *)

(** [bookmem(1, sizeof(TTEXT))]: a fresh zeroed table at a new address. *)
Definition bookmem_TTEXT : M (option nat) := λ s,
  Returns (Some (length (heap s)))
          (set_heap (heap s ++ [ {| TTEXT.size := 0; TTEXT.data := [] |} ]) s).

(** [bookmem(nb, sizeof(char ** ))]: an array of [nb] NULL rows. *)
Definition bookmem_rows (nb : Z) : option (list (list string)) :=
  if decide (0 ≤ nb) then Some (replicate (Z.to_nat nb) []) else None.

(** [rebookmem(ptr, size)]: the array [ptr] resized to [size] bytes, its
    leading elements kept. *)
Definition rebookmem (ptr : list (list string)) (size : Z)
  : option (list (list string)) :=
  if decide (0 < size ≤ INT_MAX)
  then Some (resize (Z.to_nat (size / sizeof_ptr)) [] ptr)
  else None.

(** [dupstring(s)]: a copy of [s]. *)
Definition dupstring (s : string) : string := s.

(** [sprintf(tmp, "%d", n)]: the decimal text of an [int]. *)
Definition sprintf_d (n : Z) : string := NilZero.string_of_int (Z.to_int n).

(** ** Access through the global [vret] *)

Definition read_vret : M (option nat) := λ s, Returns (vret s) s.

Definition write_vret (p : option nat) : M unit := λ s,
  Returns () (set_vret p s).

(** [*vret] *)
Definition load_vret : M TTEXT.t := λ s,
  match vret s with
  | Some p => defined (heap s !! p) s
  | None => Undefined
  end.

(** [*vret = v] *)
Definition store_vret (v : TTEXT.t) : M unit := λ s,
  match vret s with
  | Some p =>
      if decide (p < length (heap s))%nat
      then Returns () (set_heap (<[p := v]> (heap s)) s)
      else Undefined
  | None => Undefined
  end.

(** ** [action_list]

    The callback of the walk. On the in-order visit of an inner node and
    on the visit of a leaf it grows [vret->data] by one slot, stores the
    row [nb_row as text; token] there and increments [vret->size]. *)
Definition action_list (nodep : ROW_LIST.t) (which : VISIT) (depth : Z)
  : M unit :=
  match which with
  | preorder => mret ()
  | postorder | leaf =>
      let datap := nodep in
      v ← load_vret;
      data1 ← defined (rebookmem (TTEXT.data v)
                                 ((TTEXT.size v + 1) * sizeof_ptr));
      let tmp := sprintf_d (ROW_LIST.nb_row datap) in
      data2 ← defined (store_int data1 (TTEXT.size v)
                                 [dupstring tmp;
                                  dupstring (ROW_LIST.token datap)]);
      store_vret {| TTEXT.size := TTEXT.size v + 1; TTEXT.data := data2 |}
  | endorder => mret ()
  end.

(** ** [twalk] of <search.h>

    A node without children is visited once, as [leaf]; any other node
    three times, before its left subtree, between the subtrees and after
    the right one. *)
Fixpoint trecurse (root : tree) (action : ROW_LIST.t → VISIT → Z → M unit)
    (level : Z) : M unit :=
  match root with
  | Null => mret ()
  | Node Null k Null => action k leaf level
  | Node l k r =>
      action k preorder level;;
      trecurse l action (level + 1);;
      action k postorder level;;
      trecurse r action (level + 1);;
      action k endorder level
  end.

Definition twalk (root : tree) (action : ROW_LIST.t → VISIT → Z → M unit)
  : M unit :=
  match root with
  | Null => mret ()
  | _ => trecurse root action 0
  end.

(** ** The entry points *)

Section EntryPoints.

(** The collaborators get_list.c declares [extern]: [index_gtf] finds or
    builds the index of a key, which may add to the [column] table, and
    returns a pointer to its identifier ([None] is NULL);
    [get_all_attributes] enumerates the attribute names of a dataset. *)
Variable index_gtf :
  GTF_DATA.t → string → list COLUMN.t → option INDEX_ID.t * list COLUMN.t.
Variable get_all_attributes : GTF_DATA.t → option STRING_LIST.t.

Definition call_index_gtf (gtf_data : GTF_DATA.t) (key : string)
  : M (option INDEX_ID.t) := λ s,
  let '(index_id, c) := index_gtf gtf_data key (column s) in
  Returns index_id (set_column c s).

(** [column[index_id->column]->index[index_id->index_rank]->data] *)
Definition index_data (c : list COLUMN.t) (index_id : option INDEX_ID.t)
  : option tree :=
  id ← index_id;
  col ← at_int c (INDEX_ID.column id);
  idx ← at_int (COLUMN.index col) (INDEX_ID.index_rank id);
  Some (INDEX.data idx).

Definition read_index_data (index_id : option INDEX_ID.t) : M tree := λ s,
  defined (index_data (column s) index_id) s.

Definition get_feature_list (gtf_data : GTF_DATA.t) : M (option nat) :=
  p ← bookmem_TTEXT; write_vret p;;
  index_id ← call_index_gtf gtf_data "feature";
  root ← read_index_data index_id;
  twalk root action_list;;
  read_vret.

Definition get_seqid_list (gtf_data : GTF_DATA.t) : M (option nat) :=
  p ← bookmem_TTEXT; write_vret p;;
  index_id ← call_index_gtf gtf_data "seqid";
  root ← read_index_data index_id;
  twalk root action_list;;
  read_vret.

(** [for (i = 0; i < nb; i++) body(i)], for a body that leaves [i] and
    [nb] alone. *)
Definition for_int (nb : Z) (body : Z → M unit) : M unit :=
  foldr (λ i rest, body i;; rest) (mret ()) (seqZ 0 nb).

Definition get_attribute_list (gtf_data : GTF_DATA.t) : M (option nat) :=
  let sl := get_all_attributes gtf_data in
  p ← bookmem_TTEXT; write_vret p;;
  nb ← defined (STRING_LIST.nb <$> sl);
  data0 ← defined (bookmem_rows nb);
  v ← load_vret;
  store_vret {| TTEXT.size := TTEXT.size v; TTEXT.data := data0 |};;
  for_int nb (λ i,
    name ← defined (sl ≫= λ l, at_int (STRING_LIST.list l) i);
    v ← load_vret;
    data' ← defined (store_int (TTEXT.data v) i [dupstring name]);
    store_vret {| TTEXT.size := TTEXT.size v; TTEXT.data := data' |});;
  v ← load_vret;
  store_vret {| TTEXT.size := nb; TTEXT.data := TTEXT.data v |};;
  read_vret.

Definition get_attribute_values_list (gtf_data : GTF_DATA.t)
    (attribute : string) : M (option nat) :=
  p ← bookmem_TTEXT; write_vret p;;
  index_id ← call_index_gtf gtf_data attribute;
  root ← read_index_data index_id;
  twalk root action_list;;
  read_vret.

End EntryPoints.

(** The four exported functions under one name, as the spec lists them. *)
Inductive entry : Type :=
| list_feature_values
| list_seqid_values
| list_attribute_names
| list_attribute_values (attribute : string).

Section Calls.

Variable index_gtf :
  GTF_DATA.t → string → list COLUMN.t → option INDEX_ID.t * list COLUMN.t.
Variable get_all_attributes : GTF_DATA.t → option STRING_LIST.t.

Definition call (e : entry) (gtf_data : GTF_DATA.t) : M (option nat) :=
  match e with
  | list_feature_values => get_feature_list index_gtf gtf_data
  | list_seqid_values => get_seqid_list index_gtf gtf_data
  | list_attribute_names => get_attribute_list get_all_attributes gtf_data
  | list_attribute_values a => get_attribute_values_list index_gtf gtf_data a
  end.

End Calls.

(** The key an index-based entry point asks [index_gtf] for. *)
Definition key_of (e : entry) : option string :=
  match e with
  | list_feature_values => Some "feature"%string
  | list_seqid_values => Some "seqid"%string
  | list_attribute_names => None
  | list_attribute_values a => Some a
  end.

(** The number of fields of the rows an entry point builds. *)
Definition arity (e : entry) : nat :=
  match e with
  | list_attribute_names => 1
  | _ => 2
  end.

(** ** What a traversal leaves in the table *)

Fixpoint inorder (t : tree) : list ROW_LIST.t :=
  match t with
  | Null => []
  | Node l k r => inorder l ++ k :: inorder r
  end.

(** The row [action_list] builds for a node. *)
Definition row_of (d : ROW_LIST.t) : list string :=
  [sprintf_d (ROW_LIST.nb_row d); ROW_LIST.token d].

(** The table grown by the rows [rs]. *)
Definition grow (v : TTEXT.t) (rs : list (list string)) : TTEXT.t :=
  {| TTEXT.size := TTEXT.size v + Z.of_nat (length rs);
     TTEXT.data := TTEXT.data v ++ rs |}.

Definition table_of (t : tree) : TTEXT.t :=
  {| TTEXT.size := Z.of_nat (length (inorder t));
     TTEXT.data := row_of <$> inorder t |}.

Definition table_of_names (names : list string) : TTEXT.t :=
  {| TTEXT.size := Z.of_nat (length names);
     TTEXT.data := (λ n, [n]) <$> names |}.

(** The table a returned pointer designates. *)
Definition table_at (s : state) (p : option nat) : option TTEXT.t :=
  p ≫= λ a, heap s !! a.

(** The tree [index_gtf] designates for a key, read from the column table
    it leaves; [None] when it returns no identifier or one that is not in
    the table. *)
Definition index_of
    (index_gtf : GTF_DATA.t → string → list COLUMN.t
                 → option INDEX_ID.t * list COLUMN.t)
    (gtf_data : GTF_DATA.t) (key : string) (c : list COLUMN.t) : option tree :=
  let '(index_id, c') := index_gtf gtf_data key c in index_data c' index_id.

(** The state a call leaves when it starts in [s], the collaborator leaves
    the column table [c] and the new table holds [v]. *)
Definition after_call (c : list COLUMN.t) (v : TTEXT.t) (s : state) : state :=
  {| column := c; heap := heap s ++ [v]; vret := Some (length (heap s)) |}.

(** An array of [n] rows fits the [int] size of [rebookmem]. *)
Definition fits_int (n : nat) : Prop := Z.of_nat n * sizeof_ptr ≤ INT_MAX.

#[global] Instance fits_int_dec (n : nat) : Decision (fits_int n).
Proof. unfold fits_int. apply _. Defined.

(** ** The order of an index *)

(** Modelled from the spec: the comparison the index is sorted by, which
    the indexing code owns: lexicographic on the text of the value, byte by
    byte, as strcmp does. *)
Definition strcmp (a b : string) : comparison := String.compare a b.

Definition lt_token (a b : ROW_LIST.t) : Prop :=
  strcmp (ROW_LIST.token a) (ROW_LIST.token b) = Lt.

(** A search tree: every key of the left subtree is below the key of the
    node, every key of the right subtree above. *)
Fixpoint bst (t : tree) : Prop :=
  match t with
  | Null => True
  | Node l k r =>
      bst l ∧ bst r ∧
      Forall (λ x, lt_token x k) (inorder l) ∧
      Forall (λ x, lt_token k x) (inorder r)
  end.

(** The value field of a two-field row, [row[1]]. *)
Definition value_of (r : list string) : string :=
  default ""%string (r !! 1%nat).

Definition lt_row (r1 r2 : list string) : Prop :=
  strcmp (value_of r1) (value_of r2) = Lt.

(** ** What the caller gets *)

Inductive error : Type := UnknownKey | AllocationFailure.

Inductive result : Type :=
| Table (v : TTEXT.t)
| Failure (e : error).

(** An entry point has the C type of a function to a table pointer: its
    caller gets a table when the pointer returned designates one, and is
    told of a failure when the pointer is NULL, the one way such a function
    can report it. A call without defined behaviour gives the caller
    nothing. *)
Definition result_of (o : outcome (option nat)) : option result :=
  match o with
  | Returns (Some p) s => Table <$> heap s !! p
  | Returns None _ => Some (Failure UnknownKey)
  | Undefined => None
  end.

(** ** The table a call is to build *)

Section Expected.

Variable index_gtf :
  GTF_DATA.t → string → list COLUMN.t → option INDEX_ID.t * list COLUMN.t.
Variable get_all_attributes : GTF_DATA.t → option STRING_LIST.t.

(** The materialisation of the spec: the rows of the index in order, or
    one row per enumerated name, the first [nb] of the list; [None] when
    the collaborator hands out nothing the code can read, or an index of
    more rows than [rebookmem] can be asked for. *)
Definition expected (e : entry) (g : GTF_DATA.t) (c : list COLUMN.t)
  : option TTEXT.t :=
  match key_of e with
  | Some key =>
      t ← index_of index_gtf g key c;
      if decide (fits_int (length (inorder t))) then Some (table_of t)
      else None
  | None =>
      sl ← get_all_attributes g;
      if decide (0 ≤ STRING_LIST.nb sl
                 ≤ Z.of_nat (length (STRING_LIST.list sl)))
      then Some (table_of_names (take (Z.to_nat (STRING_LIST.nb sl))
                                      (STRING_LIST.list sl)))
      else None
  end.

(** The column table the collaborator leaves. *)
Definition columns_after (e : entry) (g : GTF_DATA.t) (c : list COLUMN.t)
  : list COLUMN.t :=
  match key_of e with
  | Some key => (index_gtf g key c).2
  | None => c
  end.

End Expected.

(** ** A reference collaborator *)

Module Collab.

(** Modelled from the spec: the indexing of one value, which the indexing
    code owns. The value is searched in the tree; found, its row count
    grows by one; absent, it enters as a new node of count one. *)
Fixpoint index_row (value : string) (t : tree) : tree :=
  match t with
  | Null => Node Null {| ROW_LIST.token := value; ROW_LIST.nb_row := 1 |} Null
  | Node l k r =>
      match strcmp value (ROW_LIST.token k) with
      | Eq => Node l {| ROW_LIST.token := ROW_LIST.token k;
                        ROW_LIST.nb_row := ROW_LIST.nb_row k + 1 |} r
      | Lt => Node (index_row value l) k r
      | Gt => Node l k (index_row value r)
      end
  end.

Definition build_index (values : list string) : tree :=
  foldl (λ t value, index_row value t) Null values.

(** Modelled from the spec: the attribute names of a dataset, each once,
    in a stable order. *)
Definition attribute_names (g : GTF_DATA.t) : list string :=
  remove_dups (GTF_DATA.data g ≫= λ r, fst <$> GTF_ROW.attributes r).

Definition get_all_attributes (g : GTF_DATA.t) : option STRING_LIST.t :=
  Some {| STRING_LIST.list := attribute_names g;
          STRING_LIST.nb := Z.of_nat (length (attribute_names g)) |}.

(** The value of an attribute in a row, if the row has it. *)
Definition attribute_value (key : string) (r : GTF_ROW.t) : option string :=
  found ← list_find (λ a, a.1 = key) (GTF_ROW.attributes r);
  Some found.2.2.

(** Modelled from the spec: the values a key takes over the rows of a
    dataset; a key that is neither a column nor an attribute of the
    dataset has none, which is the failure UnknownKey. *)
Definition values (g : GTF_DATA.t) (key : string) : option (list string) :=
  if decide (key = "seqid"%string) then Some (GTF_ROW.seqid <$> GTF_DATA.data g)
  else if decide (key = "feature"%string)
  then Some (GTF_ROW.feature <$> GTF_DATA.data g)
  else if decide (key ∈ attribute_names g)
  then Some (omap (attribute_value key) (GTF_DATA.data g))
  else None.

(** The position of a key in the column table: the columns of the format
    in their order, every attribute in the last one. *)
Definition column_of (key : string) : Z :=
  if decide (key = "seqid"%string) then 0
  else if decide (key = "feature"%string) then 2
  else 8.

#[global] Instance GTF_ROW_eq_dec : EqDecision GTF_ROW.t.
Proof. solve_decision. Defined.

#[global] Instance GTF_DATA_eq_dec : EqDecision GTF_DATA.t.
Proof. solve_decision. Defined.

(** Modelled from the spec: [index_gtf], which builds the index of a key
    once, keeps it in the column table and hands the same one out from
    then on; it returns NULL for a key it cannot index. *)
Definition index_gtf (g : GTF_DATA.t) (key : string) (c : list COLUMN.t)
  : option INDEX_ID.t * list COLUMN.t :=
  match values g key, at_int c (column_of key) with
  | Some vs, Some col =>
      match list_find (λ i, INDEX.key i = key ∧ INDEX.gtf_data i = g)
                      (COLUMN.index col) with
      | Some (rank, _) =>
          (Some {| INDEX_ID.column := column_of key;
                   INDEX_ID.index_rank := Z.of_nat rank |}, c)
      | None =>
          let idx := {| INDEX.key := key; INDEX.data := build_index vs;
                        INDEX.gtf_data := g |} in
          let col' := {| COLUMN.name := COLUMN.name col;
                         COLUMN.index := COLUMN.index col ++ [idx] |} in
          (Some {| INDEX_ID.column := column_of key;
                   INDEX_ID.index_rank :=
                     Z.of_nat (length (COLUMN.index col)) |},
           <[Z.to_nat (column_of key) := col']> c)
      end
  | _, _ => (None, c)
  end.

(** The column table before any index is built. *)
Definition columns0 : list COLUMN.t :=
  (λ n, {| COLUMN.name := n; COLUMN.index := [] |}) <$>
  ["seqid"; "source"; "feature"; "start"; "end"; "score"; "strand"; "phase";
   "attributes"]%string.

(** The state of a process that has made no call yet. *)
Definition state0 : state := {| column := columns0; heap := []; vret := None |}.

End Collab.

(** ** Calls that overlap

    Two calls in two threads share [column], the heap and [vret]. A call
    in progress is the place it has reached in its function, with its
    local variables; it advances by one statement at a time, each callback
    of the walk counting as one, and a schedule says which of the two
    calls makes the next step. A switch inside a callback, between two of
    its statements, is no schedule of this model: it serves for schedules
    that switch between callbacks, which the code can run, and for
    schedules without overlap, not for a statement about every way two
    calls can overlap. *)

(** The callbacks [twalk] makes for a tree, in their order. *)
Fixpoint visits (root : tree) (level : Z) : list (ROW_LIST.t * VISIT * Z) :=
  match root with
  | Null => []
  | Node Null k Null => [(k, leaf, level)]
  | Node l k r =>
      (k, preorder, level) :: visits l (level + 1) ++
      (k, postorder, level) :: visits r (level + 1) ++
      [(k, endorder, level)]
  end.

(** The callbacks of a list of visits, one after the other. *)
Definition walk_visits (action : ROW_LIST.t → VISIT → Z → M unit)
    (todo : list (ROW_LIST.t * VISIT * Z)) : M unit :=
  foldr (λ v rest, action v.1.1 v.1.2 v.2;; rest) (mret ()) todo.

(** A call of [get_attribute_values_list] in progress: before the
    assignment to [vret], before the call of [index_gtf], inside [twalk]
    with the visits still to make, and after [return vret]. *)
Inductive thread : Type :=
| AtEntry (gtf_data : GTF_DATA.t) (attribute : string)
| AtIndex (gtf_data : GTF_DATA.t) (attribute : string)
| InWalk (todo : list (ROW_LIST.t * VISIT * Z))
| Returned (p : option nat).

Section Interleaving.

Variable index_gtf :
  GTF_DATA.t → string → list COLUMN.t → option INDEX_ID.t * list COLUMN.t.

(** One step of a call. *)
Definition step (th : thread) : M thread :=
  match th with
  | AtEntry gtf_data attribute =>
      p ← bookmem_TTEXT; write_vret p;;
      mret (AtIndex gtf_data attribute)
  | AtIndex gtf_data attribute =>
      index_id ← call_index_gtf index_gtf gtf_data attribute;
      root ← read_index_data index_id;
      mret (InWalk (match root with Null => [] | _ => visits root 0 end))
  | InWalk (v :: todo) =>
      action_list v.1.1 v.1.2 v.2;;
      mret (InWalk todo)
  | InWalk [] =>
      p ← read_vret;
      mret (Returned p)
  | Returned p => mret (Returned p)
  end.

(** A call running alone for [fuel] steps. *)
Fixpoint run (fuel : nat) (th : thread) : M thread :=
  match fuel with
  | O => mret th
  | S fuel' => th' ← step th; run fuel' th'
  end.

(** Two calls under a schedule: [true] lets the first one step, [false]
    the second. *)
Fixpoint interleave (schedule : list bool) (a b : thread)
  : M (thread * thread) :=
  match schedule with
  | [] => mret (a, b)
  | true :: rest => a' ← step a; interleave rest a' b
  | false :: rest => b' ← step b; interleave rest a b'
  end.

(** The table a call returns when nothing else runs. *)
Definition alone (gtf_data : GTF_DATA.t) (attribute : string) (s : state)
  : option TTEXT.t :=
  match get_attribute_values_list index_gtf gtf_data attribute s with
  | Returns p s' => table_at s' p
  | Undefined => None
  end.

(** The two calls do not corrupt each other's tables: whatever the
    schedule, once both have returned, each holds the table it returns
    when it runs alone. *)
Definition isolated (ga : GTF_DATA.t) (ka : string) (gb : GTF_DATA.t)
    (kb : string) (s : state) : Prop :=
  ∀ schedule pa pb s',
    interleave schedule (AtEntry ga ka) (AtEntry gb kb) s
    = Returns (Returned pa, Returned pb) s' →
    table_at s' pa = alone ga ka s ∧ table_at s' pb = alone gb kb s.

End Interleaving.

(** ** Sample datasets *)

Module Sample.

#[local] Open Scope string_scope.

Definition row (seqid feature : string) (attributes : list (string * string))
  : GTF_ROW.t :=
  {| GTF_ROW.seqid := seqid; GTF_ROW.feature := feature;
     GTF_ROW.attributes := attributes |}.

(** Four rows whose feature column reads exon, exon, gene, exon. *)
Definition genes : GTF_DATA.t :=
  {| GTF_DATA.data :=
       [ row "chr1" "exon" [("gene_id", "g1"); ("exon_number", "1")];
         row "chr1" "exon" [("gene_id", "g1"); ("exon_number", "2")];
         row "chr2" "gene" [("gene_id", "g2")];
         row "chr2" "exon" [("gene_id", "g2"); ("exon_number", "1")] ] |}.

(** A dataset of no row. *)
Definition no_rows : GTF_DATA.t := {| GTF_DATA.data := [] |}.

(** The index of the feature column of [genes]. *)
Definition feature_index : tree :=
  Node Null {| ROW_LIST.token := "exon"; ROW_LIST.nb_row := 3 |}
       (Node Null {| ROW_LIST.token := "gene"; ROW_LIST.nb_row := 1 |} Null).

End Sample.

(** The state a computation leaves, for naming the state between two
    calls. *)
Definition state_after {A} (m : M A) (s : state) : state :=
  match m s with
  | Returns _ s' => s'
  | Undefined => s
  end.

(** ** The text of a row and the buffer it goes through *)

(** The least value of the C type [int]. *)
Definition INT_MIN : Z := -2147483648.

(** [char tmp[100]], the buffer [action_list] prints the count into. *)
Definition tmp_size : Z := 100.

(** A two-field row read back: the count as a decimal number and the
    value; [None] for a row of another shape or a count that is no
    decimal number. *)
Definition entry_of_row (r : list string) : option ROW_LIST.t :=
  match r with
  | [count; value] =>
      n ← NilZero.int_of_string count;
      Some {| ROW_LIST.token := value; ROW_LIST.nb_row := Z.of_int n |}
  | _ => None
  end.

(** ** Calls in a row *)

Section Sequence.

Variable index_gtf :
  GTF_DATA.t → string → list COLUMN.t → option INDEX_ID.t * list COLUMN.t.
Variable get_all_attributes : GTF_DATA.t → option STRING_LIST.t.

(** The entry points called one after the other, each on its dataset; the
    pointers they return, in the order of the calls. *)
Fixpoint calls (l : list (entry * GTF_DATA.t)) : M (list (option nat)) :=
  match l with
  | [] => mret []
  | (e, g) :: rest =>
      p ← call index_gtf get_all_attributes e g;
      ps ← calls rest;
      mret (p :: ps)
  end.

End Sequence.

(** ** A call whose only effect is its table *)

(** From [s] to [s'] nothing has happened but the construction of one new
    table: the column table and the global [vret] are as before and the
    heap has grown by that table. *)
Definition builds_only_a_table (s s' : state) : Prop :=
  column s' = column s ∧ vret s' = vret s ∧ ∃ T, heap s' = heap s ++ [T].

(** ** Notions the proofs use *)

(** The table is consistent when [size] counts the rows of [data]. *)
Definition consistent (v : TTEXT.t) : Prop :=
  TTEXT.size v = Z.of_nat (length (TTEXT.data v)).

(** The state in which the table [vret] points to has become [v]. *)
Definition with_table (p : nat) (v : TTEXT.t) (s : state) : state :=
  set_heap (<[p := v]> (heap s)) s.

(** The bytes asked of [rebookmem] for the last row of [t] fit an [int]. *)
Definition fits (v : TTEXT.t) (t : tree) : Prop :=
  (TTEXT.size v + Z.of_nat (length (inorder t))) * sizeof_ptr ≤ INT_MAX.

(** [s'] differs from [s] at most in the table [vret] points to. *)
Definition same_but_table (s s' : state) : Prop :=
  column s' = column s ∧ vret s' = vret s ∧
  length (heap s') = length (heap s) ∧
  ∀ q, vret s ≠ Some q → heap s' !! q = heap s !! q.

(** A computation frames when every run of it that returns does so in a
    state that differs at most in the table [vret] points to. *)
Definition frames {A} (m : M A) : Prop :=
  ∀ s a s', m s = Returns a s' → same_but_table s s'.

(** The body of the loop of [get_attribute_list]. *)
Definition fill_row (sl : option STRING_LIST.t) (i : Z) : M unit :=
  name ← defined (sl ≫= λ l, at_int (STRING_LIST.list l) i);
  v ← load_vret;
  data' ← defined (store_int (TTEXT.data v) i [dupstring name]);
  store_vret {| TTEXT.size := TTEXT.size v; TTEXT.data := data' |}.

(** The loop invariant: the first [i] slots hold their names, the [k]
    slots left are still NULL. *)
Definition filled (names : list string) (i k : nat) : list (list string) :=
  ((λ n, [n]) <$> take i names) ++ replicate k [].

(** * Proofs *)

(** ** Running the monad *)

Lemma bind_run {A B} (m : M A) (f : A → M B) (s : state) :
  (m ≫= f) s =
  match m s with
  | Returns a s' => f a s'
  | Undefined => Undefined
  end.
Proof. reflexivity. Qed.

Lemma bind_returns {A B} (m : M A) (f : A → M B) s a s' :
  m s = Returns a s' → (m ≫= f) s = f a s'.
Proof. intros H. rewrite bind_run, H. reflexivity. Qed.

Lemma bind_inv {A B} (m : M A) (f : A → M B) s b s2 :
  (m ≫= f) s = Returns b s2 →
  ∃ a s1, m s = Returns a s1 ∧ f a s1 = Returns b s2.
Proof.
  rewrite bind_run. destruct (m s) as [a s1|]; [|discriminate].
  intros H. exists a, s1. split; [reflexivity|exact H].
Qed.

Lemma defined_inv {A} (o : option A) s a s' :
  defined o s = Returns a s' → o = Some a ∧ s' = s.
Proof. destruct o; simpl; [|discriminate]. intros [= -> ->]. auto. Qed.

Lemma set_heap_same s : set_heap (heap s) s = s.
Proof. destruct s; reflexivity. Qed.

Lemma load_vret_run s p v :
  vret s = Some p → heap s !! p = Some v → load_vret s = Returns v s.
Proof. intros Hp Hv. unfold load_vret. rewrite Hp, Hv. reflexivity. Qed.

(** ** One visit *)

Lemma grow_nil v : grow v [] = v.
Proof.
  destruct v as [n d]. unfold grow; simpl. f_equal; [lia|apply app_nil_r].
Qed.

Lemma grow_grow v a b : grow (grow v a) b = grow v (a ++ b).
Proof.
  unfold grow; simpl. f_equal.
  - rewrite length_app. lia.
  - symmetry. apply app_assoc.
Qed.

Lemma consistent_grow v rs : consistent v → consistent (grow v rs).
Proof. unfold consistent, grow; simpl. rewrite length_app. lia. Qed.

Lemma rebookmem_one_more (d : list (list string)) :
  (Z.of_nat (length d) + 1) * sizeof_ptr ≤ INT_MAX →
  rebookmem d ((Z.of_nat (length d) + 1) * sizeof_ptr) = Some (d ++ [[]]).
Proof.
  intros Hfit. unfold rebookmem.
  assert (Hpos : 0 < sizeof_ptr) by reflexivity.
  rewrite decide_True by (split; [nia|exact Hfit]).
  rewrite Z.div_mul by lia.
  replace (Z.to_nat (Z.of_nat (length d) + 1)) with (length d + 1)%nat by lia.
  rewrite resize_add_eq by reflexivity. reflexivity.
Qed.

Lemma store_int_last {A} (d : list A) (x y : A) :
  store_int (d ++ [x]) (Z.of_nat (length d)) y = Some (d ++ [y]).
Proof.
  unfold store_int. rewrite length_app; simpl.
  rewrite decide_True by lia. f_equal.
  rewrite Nat2Z.id, insert_app_r_alt by lia.
  rewrite Nat.sub_diag. reflexivity.
Qed.

Lemma action_list_appends d which depth s p v :
  which = postorder ∨ which = leaf →
  vret s = Some p → heap s !! p = Some v →
  consistent v →
  (TTEXT.size v + 1) * sizeof_ptr ≤ INT_MAX →
  action_list d which depth s
  = Returns () (set_heap (<[p := grow v [row_of d]]> (heap s)) s).
Proof.
  intros Hw Hp Hv Hc Hfit.
  assert (Hgo : (v ← load_vret;
      data1 ← defined (rebookmem (TTEXT.data v)
                                 ((TTEXT.size v + 1) * sizeof_ptr));
      data2 ← defined (store_int data1 (TTEXT.size v)
                 [dupstring (sprintf_d (ROW_LIST.nb_row d));
                  dupstring (ROW_LIST.token d)]);
      store_vret {| TTEXT.size := TTEXT.size v + 1; TTEXT.data := data2 |}) s
    = Returns () (set_heap (<[p := grow v [row_of d]]> (heap s)) s)).
  { rewrite (bind_returns _ _ s v s)
      by (unfold load_vret; rewrite Hp, Hv; reflexivity).
    red in Hc. rewrite Hc in Hfit |- *.
    rewrite rebookmem_one_more by exact Hfit.
    rewrite (bind_returns _ _ s (TTEXT.data v ++ [[]]) s) by reflexivity.
    rewrite store_int_last.
    rewrite (bind_returns _ _ s (TTEXT.data v ++ [row_of d]) s) by reflexivity.
    unfold store_vret. rewrite Hp.
    rewrite decide_True by (eapply lookup_lt_Some; exact Hv).
    unfold grow; simpl. rewrite Hc. reflexivity. }
  destruct Hw as [-> | ->]; exact Hgo.
Qed.

(** ** The whole walk *)

Lemma with_table_same p v s : heap s !! p = Some v → with_table p v s = s.
Proof.
  intros H. unfold with_table. rewrite list_insert_id by exact H.
  apply set_heap_same.
Qed.

Lemma with_table_twice p v w s :
  with_table p w (with_table p v s) = with_table p w s.
Proof.
  unfold with_table; simpl. rewrite list_insert_insert_eq. reflexivity.
Qed.

Lemma with_table_lookup p v s :
  (p < length (heap s))%nat → heap (with_table p v s) !! p = Some v.
Proof. intros H. simpl. apply list_lookup_insert_eq. exact H. Qed.

Lemma store_vret_run v s p :
  vret s = Some p → (p < length (heap s))%nat →
  store_vret v s = Returns () (with_table p v s).
Proof.
  intros Hp Hlt. unfold store_vret. rewrite Hp, decide_True by exact Hlt.
  reflexivity.
Qed.

Lemma trecurse_action_list t :
  ∀ level s p v,
    vret s = Some p → heap s !! p = Some v → consistent v → fits v t →
    trecurse t action_list level s
    = Returns () (with_table p (grow v (row_of <$> inorder t)) s).
Proof.
  assert (Hsz : 0 < sizeof_ptr) by reflexivity.
  induction t as [|l IHl k r IHr]; intros level s p v Hp Hv Hc Hfit.
  - simpl. rewrite grow_nil, with_table_same by exact Hv. reflexivity.
  - assert (Hlt : (p < length (heap s))%nat) by (eapply lookup_lt_Some; eauto).
    unfold fits in Hfit. simpl in Hfit. rewrite length_app in Hfit.
    simpl in Hfit.
    assert (Hinner :
      (action_list k preorder level;;
       trecurse l action_list (level + 1);;
       action_list k postorder level;;
       trecurse r action_list (level + 1);;
       action_list k endorder level) s
      = Returns () (with_table p (grow v (row_of <$> inorder (Node l k r))) s)).
    { rewrite (bind_returns _ _ s () s) by reflexivity.
      rewrite (bind_returns _ _ _ _ _ (IHl (level + 1) s p v Hp Hv Hc
                 ltac:(unfold fits; nia))).
      set (v1 := grow v (row_of <$> inorder l)).
      assert (Hc1 : consistent v1) by (apply consistent_grow, Hc).
      assert (Hs1 : TTEXT.size v1
                    = TTEXT.size v + Z.of_nat (length (inorder l))).
      { unfold v1, grow; simpl. rewrite length_fmap. reflexivity. }
      rewrite (bind_returns _ _ _ _ _
                 (action_list_appends k postorder level (with_table p v1 s)
                    p v1 (or_introl eq_refl) Hp (with_table_lookup p v1 s Hlt)
                    Hc1 ltac:(rewrite Hs1; nia))).
      fold (with_table p (grow v1 [row_of k]) (with_table p v1 s)).
      rewrite with_table_twice.
      set (v2 := grow v1 [row_of k]).
      assert (Hc2 : consistent v2) by (apply consistent_grow, Hc1).
      assert (Hs2 : TTEXT.size v2 = TTEXT.size v1 + 1) by reflexivity.
      rewrite (bind_returns _ _ _ _ _
                 (IHr (level + 1) (with_table p v2 s) p v2 Hp
                    (with_table_lookup p v2 s Hlt) Hc2
                    ltac:(unfold fits; rewrite Hs2, Hs1; nia))).
      rewrite with_table_twice. unfold v2, v1.
      rewrite !grow_grow. simpl. rewrite fmap_app. simpl. reflexivity. }
    destruct l as [|ll lk lr], r as [|rl rk rr]; try exact Hinner.
    cbn [trecurse].
    rewrite (action_list_appends k leaf level s p v (or_intror eq_refl)
               Hp Hv Hc ltac:(simpl in Hfit; nia)).
    reflexivity.
Qed.

Lemma twalk_action_list t s p v :
  vret s = Some p → heap s !! p = Some v → consistent v → fits v t →
  twalk t action_list s
  = Returns () (with_table p (grow v (row_of <$> inorder t)) s).
Proof.
  intros Hp Hv Hc Hfit. destruct t as [|l k r].
  - simpl. rewrite grow_nil, with_table_same by exact Hv. reflexivity.
  - apply (trecurse_action_list (Node l k r) 0 s p v Hp Hv Hc Hfit).
Qed.

(** ** A walk that returns had room for its rows *)

Lemma inorder_nil t : inorder t = [] → t = Null.
Proof.
  destruct t as [|l k r]; [reflexivity|]. simpl. intros H.
  apply app_eq_nil in H as [_ H]. discriminate.
Qed.

Lemma action_list_defined d which depth s p v u s' :
  which = postorder ∨ which = leaf →
  vret s = Some p → heap s !! p = Some v →
  action_list d which depth s = Returns u s' →
  (TTEXT.size v + 1) * sizeof_ptr ≤ INT_MAX.
Proof.
  intros Hw Hp Hv H.
  assert (Hgo : ∀ tmp, (v ← load_vret;
      data1 ← defined (rebookmem (TTEXT.data v)
                                 ((TTEXT.size v + 1) * sizeof_ptr));
      data2 ← defined (store_int data1 (TTEXT.size v)
                 [dupstring tmp; dupstring (ROW_LIST.token d)]);
      store_vret {| TTEXT.size := TTEXT.size v + 1; TTEXT.data := data2 |}) s
      = Returns u s' → (TTEXT.size v + 1) * sizeof_ptr ≤ INT_MAX).
  { intros tmp H'. rewrite (bind_returns _ _ _ _ _ (load_vret_run s p v Hp Hv))
      in H'.
    apply bind_inv in H' as (d1 & s1 & H1 & _).
    apply defined_inv in H1 as [H1 _]. unfold rebookmem in H1.
    destruct (decide _) as [[_ Hle]|]; [exact Hle|discriminate]. }
  destruct Hw as [-> | ->]; eapply Hgo, H.
Qed.

Lemma trecurse_defined t : ∀ level s p v u s',
  vret s = Some p → heap s !! p = Some v → consistent v →
  trecurse t action_list level s = Returns u s' →
  t = Null ∨ fits v t.
Proof.
  induction t as [|l IHl k r IHr]; intros level s p v u s' Hp Hv Hc H;
    [left; reflexivity|right].
  assert (Hlt : (p < length (heap s))%nat) by (eapply lookup_lt_Some; eauto).
  assert (Hinner : ∀ u,
      (action_list k preorder level;;
       trecurse l action_list (level + 1);;
       action_list k postorder level;;
       trecurse r action_list (level + 1);;
       action_list k endorder level) s = Returns u s' → fits v (Node l k r)).
  { clear H. intros u' H.
    rewrite (bind_returns _ _ s () s) in H by reflexivity.
    apply bind_inv in H as (u1 & s1 & H1 & H).
    set (v1 := grow v (row_of <$> inorder l)).
    assert (Hc1 : consistent v1) by (apply consistent_grow, Hc).
    assert (Hs1 : TTEXT.size v1
                  = TTEXT.size v + Z.of_nat (length (inorder l))).
    { unfold v1, grow; simpl. rewrite length_fmap. reflexivity. }
    assert (s1 = with_table p v1 s) as ->.
    { pose proof (IHl _ _ _ _ _ _ Hp Hv Hc H1) as [-> | Hfl].
      - injection H1 as _ <-. unfold v1. simpl.
        rewrite grow_nil, with_table_same by exact Hv. reflexivity.
      - rewrite (trecurse_action_list l _ s p v Hp Hv Hc Hfl) in H1.
        injection H1 as _ <-. reflexivity. }
    apply bind_inv in H as (u2 & s2 & H2 & H).
    pose proof (action_list_defined k postorder level (with_table p v1 s)
                  p v1 _ _ (or_introl eq_refl)
                  Hp (with_table_lookup p v1 s Hlt) H2) as Hroom.
    set (v2 := grow v1 [row_of k]).
    assert (Hc2 : consistent v2) by (apply consistent_grow, Hc1).
    assert (Hs2 : TTEXT.size v2 = TTEXT.size v1 + 1) by reflexivity.
    assert (s2 = with_table p v2 s) as ->.
    { rewrite (action_list_appends k postorder level (with_table p v1 s)
                 p v1 (or_introl eq_refl) Hp (with_table_lookup p v1 s Hlt)
                 Hc1 Hroom) in H2.
      injection H2 as _ <-. exact (with_table_twice p v1 v2 s). }
    apply bind_inv in H as (u3 & s3 & H3 & _).
    unfold fits. simpl. rewrite length_app. simpl.
    pose proof (IHr _ (with_table p v2 s) _ _ _ _ Hp
                  (with_table_lookup p v2 s Hlt) Hc2 H3) as [-> | Hfr].
    - simpl. rewrite Hs1 in Hroom. unfold sizeof_ptr in *. lia.
    - unfold fits in Hfr. rewrite Hs2, Hs1 in Hfr.
      unfold sizeof_ptr in *. lia. }
  destruct l as [|ll lk lr], r as [|rl rk rr]; eauto.
  cbn [trecurse] in H.
  pose proof (action_list_defined _ _ _ _ p v _ _ (or_intror eq_refl)
                Hp Hv H) as Hroom.
  unfold fits. simpl. exact Hroom.
Qed.

(** ** What the walk leaves untouched

    From any state, whatever [vret] points to, the callback and the walk
    change nothing but the table [vret] points to. *)

Lemma same_but_table_refl s : same_but_table s s.
Proof. repeat split. Qed.

Lemma same_but_table_trans s1 s2 s3 :
  same_but_table s1 s2 → same_but_table s2 s3 → same_but_table s1 s3.
Proof.
  intros (Hc & Hv & Hl & Hq) (Hc' & Hv' & Hl' & Hq').
  repeat split; try congruence.
  intros q Hne. rewrite Hq' by congruence. apply Hq, Hne.
Qed.

Lemma frames_ret {A} (a : A) : frames (mret a : M A).
Proof. intros s a' s' [= _ <-]. apply same_but_table_refl. Qed.

Lemma frames_bind {A B} (m : M A) (f : A → M B) :
  frames m → (∀ a, frames (f a)) → frames (m ≫= f).
Proof.
  intros Hm Hf s b s2 H. apply bind_inv in H as (a & s1 & H1 & H2).
  eapply same_but_table_trans; [eapply Hm, H1|eapply Hf, H2].
Qed.

Lemma frames_defined {A} (o : option A) : frames (defined o).
Proof.
  intros s a s' H. apply defined_inv in H as [_ ->].
  apply same_but_table_refl.
Qed.

Lemma frames_load_vret : frames load_vret.
Proof.
  intros s a s'. unfold load_vret. destruct (vret s); [|discriminate].
  apply frames_defined.
Qed.

Lemma frames_read_vret : frames read_vret.
Proof. intros s a s' [= _ <-]. apply same_but_table_refl. Qed.

Lemma frames_store_vret v : frames (store_vret v).
Proof.
  intros s u s'.
  unfold store_vret. destruct (vret s) as [p|] eqn:Hp; [|discriminate].
  destruct (decide _); [|discriminate]. intros [= _ <-].
  repeat split; simpl.
  - apply length_insert.
  - intros q Hne. apply list_lookup_insert_ne. congruence.
Qed.

Create HintDb frames.
#[local] Hint Resolve frames_ret frames_defined frames_load_vret
  frames_read_vret frames_store_vret : frames.

Ltac frames_auto :=
  repeat (first [ apply frames_bind; [|intros ?] | solve [auto with frames] ]).

Lemma action_list_frame d which depth : frames (action_list d which depth).
Proof. destruct which; simpl; frames_auto. Qed.

Lemma trecurse_frame t : ∀ level s u s',
  trecurse t action_list level s = Returns u s' → same_but_table s s'.
Proof.
  induction t as [|l IHl k r IHr]; intros level s u s' H.
  - injection H as _ <-. apply same_but_table_refl.
  - assert (Hinner : ∀ u,
      (action_list k preorder level;;
       trecurse l action_list (level + 1);;
       action_list k postorder level;;
       trecurse r action_list (level + 1);;
       action_list k endorder level) s = Returns u s' → same_but_table s s').
    { clear H. intros u' H.
      apply bind_inv in H as (? & s1 & H1 & H). injection H1 as _ <-.
      apply bind_inv in H as (? & s2 & H2 & H). apply IHl in H2.
      apply bind_inv in H as (? & s3 & H3 & H). apply action_list_frame in H3.
      apply bind_inv in H as (? & s4 & H4 & H). apply IHr in H4.
      injection H as _ <-.
      eauto using same_but_table_trans. }
    destruct l as [|ll lk lr], r as [|rl rk rr]; eauto.
    cbn [trecurse] in H. eapply action_list_frame, H.
Qed.

Lemma twalk_frame t s u s' :
  twalk t action_list s = Returns u s' → same_but_table s s'.
Proof.
  destruct t as [|l k r].
  - intros [= _ <-]. apply same_but_table_refl.
  - apply (trecurse_frame (Node l k r) 0).
Qed.

(** ** The index-based entry points *)

Section IndexCalls.

Variable index_gtf :
  GTF_DATA.t → string → list COLUMN.t → option INDEX_ID.t * list COLUMN.t.

Lemma grow_zero_table_of t :
  grow {| TTEXT.size := 0; TTEXT.data := [] |} (row_of <$> inorder t)
  = table_of t.
Proof. unfold grow, table_of; simpl. rewrite length_fmap. reflexivity. Qed.

Lemma values_list_returns g key s t :
  index_of index_gtf g key (column s) = Some t →
  fits_int (length (inorder t)) →
  get_attribute_values_list index_gtf g key s
  = Returns (Some (length (heap s)))
            (after_call (index_gtf g key (column s)).2 (table_of t) s).
Proof.
  intros Hidx Hfit. unfold index_of in Hidx.
  unfold get_attribute_values_list.
  rewrite bind_run. unfold bookmem_TTEXT at 1. cbv beta iota.
  rewrite bind_run. unfold write_vret at 1. cbv beta iota.
  rewrite bind_run. unfold call_index_gtf at 1. simpl column.
  destruct (index_gtf g key (column s)) as [id c'] eqn:Hig. simpl snd.
  rewrite bind_run. unfold read_index_data at 1. simpl column.
  rewrite Hidx. simpl defined.
  set (n := length (heap s)).
  set (zero := {| TTEXT.size := 0; TTEXT.data := [] |}).
  set (s1 := set_column c' (set_vret (Some n) (set_heap (heap s ++ [zero]) s))).
  assert (Hz : heap s1 !! n = Some zero).
  { simpl. rewrite lookup_app_r by reflexivity.
    unfold n. rewrite Nat.sub_diag. reflexivity. }
  cbv beta iota.
  rewrite (bind_returns _ _ _ _ _
             (twalk_action_list t s1 n zero eq_refl Hz eq_refl
                ltac:(exact Hfit))).
  unfold read_vret, with_table, after_call; simpl. f_equal. f_equal.
  rewrite grow_zero_table_of.
  rewrite insert_app_r_alt by reflexivity.
  fold n. rewrite Nat.sub_diag. reflexivity.
Qed.

Lemma values_list_defined g key s r s' :
  get_attribute_values_list index_gtf g key s = Returns r s' →
  ∃ t, index_of index_gtf g key (column s) = Some t ∧
       fits_int (length (inorder t)).
Proof.
  unfold get_attribute_values_list, index_of.
  rewrite bind_run. unfold bookmem_TTEXT at 1. cbv beta iota.
  rewrite bind_run. unfold write_vret at 1. cbv beta iota.
  rewrite bind_run. unfold call_index_gtf at 1. simpl column.
  destruct (index_gtf g key (column s)) as [id c'] eqn:Hig.
  rewrite bind_run. unfold read_index_data at 1. simpl column.
  destruct (index_data c' id) as [t|]; [|discriminate]. simpl defined.
  cbv beta iota. intros H. apply bind_inv in H as (u & s2 & Hw & _).
  exists t. split; [reflexivity|].
  destruct t as [|l k r']; [unfold fits_int; simpl; unfold INT_MAX; lia|].
  set (n := length (heap s)) in *.
  set (zero := {| TTEXT.size := 0; TTEXT.data := [] |}) in *.
  assert (Hz : (heap s ++ [zero]) !! n = Some zero).
  { rewrite lookup_app_r by reflexivity.
    unfold n. rewrite Nat.sub_diag. reflexivity. }
  destruct (trecurse_defined (Node l k r') 0
              (set_column c'
                 (set_vret (Some n) (set_heap (heap s ++ [zero]) s)))
              n zero u s2 eq_refl Hz eq_refl Hw)
    as [Hnull | Hfit]; [discriminate|exact Hfit].
Qed.

End IndexCalls.

(** ** The attribute-name entry point *)

Section NameCalls.

Variable get_all_attributes : GTF_DATA.t → option STRING_LIST.t.

Lemma fill_loop sl sz p : ∀ (k i : nat) s,
  (i + k ≤ length (STRING_LIST.list sl))%nat →
  vret s = Some p →
  heap s !! p
  = Some {| TTEXT.size := sz;
            TTEXT.data := filled (STRING_LIST.list sl) i k |} →
  foldr (λ j rest, fill_row (Some sl) j;; rest) (mret ())
        (seqZ (Z.of_nat i) (Z.of_nat k)) s
  = Returns () (with_table p
                  {| TTEXT.size := sz;
                     TTEXT.data :=
                       (λ n, [n]) <$> take (i + k) (STRING_LIST.list sl) |} s).
Proof.
  set (names := STRING_LIST.list sl).
  induction k as [|k IH]; intros i s Hlen Hp Hv.
  - simpl. unfold filled in Hv. simpl in Hv.
    rewrite app_nil_r in Hv. rewrite Nat.add_0_r.
    rewrite with_table_same by exact Hv. reflexivity.
  - rewrite seqZ_cons by lia. simpl foldr.
    destruct (lookup_lt_is_Some_2 names i ltac:(lia)) as [x Hx].
    assert (Hlt : (p < length (heap s))%nat) by (eapply lookup_lt_Some; eauto).
    assert (Hbody : fill_row (Some sl) (Z.of_nat i) s
      = Returns () (with_table p
          {| TTEXT.size := sz; TTEXT.data := filled names (S i) k |} s)).
    { unfold fill_row.
      rewrite (bind_returns _ _ s x s).
      2:{ simpl. unfold at_int. rewrite decide_True by lia.
          rewrite Nat2Z.id. fold names. rewrite Hx. reflexivity. }
      rewrite (bind_returns _ _ _ _ _ (load_vret_run s p _ Hp Hv)).
      simpl TTEXT.data. simpl TTEXT.size.
      assert (Hst : store_int (filled names i (S k)) (Z.of_nat i) [dupstring x]
                    = Some (filled names (S i) k)).
      { unfold store_int, filled.
        assert (Hti : length ((λ n, [n]) <$> take i names) = i).
        { rewrite length_fmap, length_take. lia. }
        rewrite length_app, Hti, length_replicate.
        rewrite decide_True by lia. f_equal.
        rewrite Nat2Z.id, insert_app_r_alt by lia.
        rewrite Hti, Nat.sub_diag. simpl.
        rewrite (take_S_r _ _ _ Hx), fmap_app, <- app_assoc. reflexivity. }
      rewrite Hst.
      rewrite (bind_returns _ _ s (filled names (S i) k) s) by reflexivity.
      apply store_vret_run; assumption. }
    rewrite (bind_returns _ _ _ _ _ Hbody).
    replace (Z.succ (Z.of_nat i)) with (Z.of_nat (S i)) by lia.
    replace (Z.pred (Z.of_nat (S k))) with (Z.of_nat k) by lia.
    rewrite (IH (S i) (with_table p _ s) ltac:(lia) Hp
               (with_table_lookup _ _ _ Hlt)).
    rewrite with_table_twice.
    replace (S i + k)%nat with (i + S k)%nat by lia. reflexivity.
Qed.

Lemma fill_loop_inv sl : ∀ (k i : nat) s u s',
  foldr (λ j rest, fill_row (Some sl) j;; rest) (mret ())
        (seqZ (Z.of_nat i) (Z.of_nat k)) s = Returns u s' →
  (k = 0 ∨ i + k ≤ length (STRING_LIST.list sl))%nat.
Proof.
  induction k as [|k IH]; intros i s u s' H; [left; reflexivity|right].
  rewrite seqZ_cons in H by lia. simpl foldr in H.
  apply bind_inv in H as (u1 & s1 & Hb & H).
  replace (Z.succ (Z.of_nat i)) with (Z.of_nat (S i)) in H by lia.
  replace (Z.pred (Z.of_nat (S k))) with (Z.of_nat k) in H by lia.
  apply IH in H. unfold fill_row in Hb.
  apply bind_inv in Hb as (x & s2 & Hx & _).
  apply defined_inv in Hx as [Hx _]. simpl in Hx. unfold at_int in Hx.
  destruct (decide _); [|discriminate].
  apply lookup_lt_Some in Hx. lia.
Qed.

Lemma attribute_list_returns g s sl :
  get_all_attributes g = Some sl →
  0 ≤ STRING_LIST.nb sl ≤ Z.of_nat (length (STRING_LIST.list sl)) →
  get_attribute_list get_all_attributes g s
  = Returns (Some (length (heap s)))
            (after_call (column s)
               (table_of_names (take (Z.to_nat (STRING_LIST.nb sl))
                                     (STRING_LIST.list sl))) s).
Proof.
  intros Hsl Hnb. unfold get_attribute_list. rewrite Hsl.
  set (n := length (heap s)).
  set (zero := {| TTEXT.size := 0; TTEXT.data := [] |}).
  set (s1 := set_vret (Some n) (set_heap (heap s ++ [zero]) s)).
  assert (Hz : heap s1 !! n = Some zero).
  { simpl. rewrite lookup_app_r by reflexivity.
    unfold n. rewrite Nat.sub_diag. reflexivity. }
  assert (Hlt : (n < length (heap s1))%nat) by (eapply lookup_lt_Some; eauto).
  assert (Hp : vret s1 = Some n) by reflexivity.
  rewrite (bind_returns _ _ s (Some n) (set_heap (heap s ++ [zero]) s))
    by reflexivity.
  rewrite (bind_returns _ _ _ () s1) by reflexivity.
  rewrite (bind_returns _ _ s1 (STRING_LIST.nb sl) s1) by reflexivity.
  rewrite (bind_returns _ _ s1
             (replicate (Z.to_nat (STRING_LIST.nb sl)) []) s1).
  2:{ unfold bookmem_rows.
      rewrite decide_True by lia. reflexivity. }
  rewrite (bind_returns _ _ _ _ _ (load_vret_run s1 n zero Hp Hz)).
  rewrite (bind_returns _ _ _ _ _ (store_vret_run _ s1 n Hp Hlt)).
  set (m := Z.to_nat (STRING_LIST.nb sl)).
  set (names := STRING_LIST.list sl) in *.
  set (v0 := {| TTEXT.size := TTEXT.size zero;
                TTEXT.data := replicate m [] |}).
  set (v1 := {| TTEXT.size := 0; TTEXT.data := (λ n, [n]) <$> take m names |}).
  assert (Hm : (0 + m ≤ length names)%nat) by (unfold m; lia).
  assert (Hmz : STRING_LIST.nb sl = Z.of_nat m) by (unfold m; lia).
  rewrite (bind_returns _ _ (with_table n v0 s1) () (with_table n v1 s1)).
  2:{ unfold for_int. rewrite Hmz.
      rewrite <- (with_table_twice n v0 v1 s1).
      apply (fill_loop sl 0 n m 0 (with_table n v0 s1) Hm Hp).
      rewrite with_table_lookup by exact Hlt. reflexivity. }
  rewrite (bind_returns _ _ _ _ _
             (load_vret_run (with_table n v1 s1) n _ Hp
                (with_table_lookup _ _ _ Hlt))).
  rewrite (bind_returns _ _ _ _ _
             (store_vret_run _ (with_table n v1 s1) n Hp
                ltac:(simpl; rewrite length_insert; exact Hlt))).
  rewrite with_table_twice.
  unfold read_vret, after_call, table_of_names, with_table. simpl.
  f_equal. f_equal.
  rewrite length_take, Nat.min_l by exact Hm.
  rewrite <- Hmz.
  rewrite insert_app_r_alt by reflexivity.
  fold n. rewrite Nat.sub_diag. reflexivity.
Qed.

Lemma attribute_list_defined g s r s' :
  get_attribute_list get_all_attributes g s = Returns r s' →
  ∃ sl, get_all_attributes g = Some sl ∧
        0 ≤ STRING_LIST.nb sl ≤ Z.of_nat (length (STRING_LIST.list sl)).
Proof.
  unfold get_attribute_list. intros H.
  apply bind_inv in H as (? & s1 & _ & H).
  apply bind_inv in H as (? & s2 & _ & H).
  apply bind_inv in H as (nb & s3 & Hnb & H).
  apply defined_inv in Hnb as [Hnb _].
  destruct (get_all_attributes g) as [sl|]; [|discriminate].
  injection Hnb as <-. exists sl. split; [reflexivity|].
  apply bind_inv in H as (d0 & s4 & Hd & H).
  apply defined_inv in Hd as [Hd _]. unfold bookmem_rows in Hd.
  destruct (decide _) as [Hpos|]; [|discriminate].
  apply bind_inv in H as (? & s5 & _ & H).
  apply bind_inv in H as (? & s6 & _ & H).
  apply bind_inv in H as (? & s7 & Hloop & _).
  unfold for_int in Hloop.
  replace (STRING_LIST.nb sl) with (Z.of_nat (Z.to_nat (STRING_LIST.nb sl)))
    in Hloop at 1 by lia.
  apply (fill_loop_inv sl _ 0%nat) in Hloop. lia.
Qed.

End NameCalls.

(** ** Every entry point at once *)

Section CallSpec.

Variable index_gtf :
  GTF_DATA.t → string → list COLUMN.t → option INDEX_ID.t * list COLUMN.t.
Variable get_all_attributes : GTF_DATA.t → option STRING_LIST.t.

Abbreviation call := (call index_gtf get_all_attributes).
Abbreviation expected := (expected index_gtf get_all_attributes).
Abbreviation columns_after := (columns_after index_gtf).

Lemma call_index_based e key g :
  key_of e = Some key →
  call e g = get_attribute_values_list index_gtf g key.
Proof. destruct e; intros [= <-]; reflexivity. Qed.

Lemma call_returns e g s T :
  expected e g (column s) = Some T →
  call e g s
  = Returns (Some (length (heap s)))
            (after_call (columns_after e g (column s)) T s).
Proof.
  unfold expected, columns_after. intros Hexp.
  destruct (key_of e) as [key|] eqn:Hkey.
  - rewrite (call_index_based e key g Hkey).
    destruct (index_of index_gtf g key (column s)) as [t|] eqn:Ht;
      [|discriminate].
    simpl in Hexp. destruct (decide _) as [Hfit|]; [|discriminate].
    injection Hexp as <-. apply values_list_returns; assumption.
  - destruct e; try discriminate. simpl call.
    destruct (get_all_attributes g) as [sl|] eqn:Hsl; [|discriminate].
    simpl in Hexp. destruct (decide _) as [Hnb|]; [|discriminate].
    injection Hexp as <-. apply attribute_list_returns; assumption.
Qed.

Lemma call_inv e g s r s' :
  call e g s = Returns r s' →
  ∃ T, expected e g (column s) = Some T ∧
       r = Some (length (heap s)) ∧
       s' = after_call (columns_after e g (column s)) T s.
Proof.
  intros H.
  assert (∃ T, expected e g (column s) = Some T) as (T & Hexp).
  { unfold expected. destruct (key_of e) as [key|] eqn:Hkey.
    - rewrite (call_index_based e key g Hkey) in H.
      apply values_list_defined in H as (t & -> & Hfit).
      exists (table_of t). simpl. rewrite decide_True by exact Hfit.
      reflexivity.
    - destruct e; try discriminate. simpl call in H.
      apply attribute_list_defined in H as (sl & -> & Hnb).
      simpl. rewrite decide_True by exact Hnb.
      eexists. reflexivity. }
  exists T. rewrite (call_returns e g s T Hexp) in H.
  injection H as <- <-. auto.
Qed.

(** The table an index-based call is to build is the table of the index. *)
Lemma expected_index_based e key g c T :
  key_of e = Some key →
  expected e g c = Some T →
  ∃ t, index_of index_gtf g key c = Some t ∧ T = table_of t.
Proof.
  unfold expected. intros -> H.
  destruct (index_of index_gtf g key c) as [t|]; [|discriminate].
  simpl in H. destruct (decide _); [|discriminate].
  injection H as <-. exists t. auto.
Qed.

End CallSpec.

(** ** Search trees are walked in ascending order *)

Lemma strcmp_trans a b c :
  strcmp a b = Lt → strcmp b c = Lt → strcmp a c = Lt.
Proof.
  unfold strcmp. change String.compare with String_as_OT.cmp.
  rewrite !String_as_OT.cmp_lt. apply String_as_OT.lt_trans.
Qed.

Lemma strcmp_irrefl a : strcmp a a ≠ Lt.
Proof.
  unfold strcmp. intros H. pose proof (String.compare_antisym a a) as Ha.
  rewrite H in Ha. discriminate.
Qed.

Lemma bst_inorder_sorted t : bst t → StronglySorted lt_token (inorder t).
Proof.
  induction t as [|l IHl k r IHr]; simpl.
  - intros _. constructor.
  - intros (Hl & Hr & Hlk & Hkr).
    rewrite Forall_forall in Hlk, Hkr.
    apply StronglySorted_app_2.
    + intros x1 x2 H1 H2. apply elem_of_cons in H2 as [-> | H2].
      * apply Hlk, H1.
      * unfold lt_token. eapply strcmp_trans; [apply Hlk, H1|apply Hkr, H2].
    + apply IHl, Hl.
    + apply StronglySorted_cons. split; [|apply IHr, Hr].
      apply Forall_forall, Hkr.
Qed.

Lemma rows_sorted (l : list ROW_LIST.t) :
  StronglySorted lt_token l → StronglySorted lt_row (row_of <$> l).
Proof. apply StronglySorted_fmap. intros x y H. exact H. Qed.

Lemma sorted_rows_distinct (rows : list (list string)) :
  StronglySorted lt_row rows → NoDup (value_of <$> rows).
Proof.
  induction 1 as [|r rows Hs IH Hall]; simpl; constructor; [|exact IH].
  intros Hin. apply list_elem_of_fmap in Hin as (r' & Heq & Hin).
  rewrite Forall_forall in Hall. specialize (Hall r' Hin).
  unfold lt_row in Hall. rewrite Heq in Hall.
  exact (strcmp_irrefl _ Hall).
Qed.

(** ** The heap after a call *)

Lemma after_call_lookup_new c T s :
  heap (after_call c T s) !! length (heap s) = Some T.
Proof.
  simpl. rewrite lookup_app_r by reflexivity.
  rewrite Nat.sub_diag. reflexivity.
Qed.

Lemma after_call_lookup_old c T s q :
  (q < length (heap s))%nat → heap (after_call c T s) !! q = heap s !! q.
Proof. intros H. simpl. apply lookup_app_l, H. Qed.

Lemma table_at_some s a : table_at s (Some a) = heap s !! a.
Proof. reflexivity. Qed.

(** ** The reference collaborator hands out the same index again *)

Lemma at_int_insert {A} (a : list A) (i : Z) (x y : A) :
  at_int a i = Some x → at_int (<[Z.to_nat i := y]> a) i = Some y.
Proof.
  unfold at_int. destruct (decide _); [|discriminate]. intros H.
  apply list_lookup_insert_eq. eapply lookup_lt_Some, H.
Qed.

Lemma Collab_index_stable g key c :
  index_of Collab.index_gtf g key (Collab.index_gtf g key c).2
  = index_of Collab.index_gtf g key c.
Proof.
  unfold index_of.
  destruct (Collab.index_gtf g key c) as [id c'] eqn:Hfirst. simpl snd.
  unfold Collab.index_gtf in Hfirst |- *.
  destruct (Collab.values g key) as [vs|]; [|injection Hfirst as <- <-].
  2:{ reflexivity. }
  destruct (at_int c (Collab.column_of key)) as [col|] eqn:Hcol.
  2:{ injection Hfirst as <- <-. rewrite Hcol. reflexivity. }
  destruct (list_find _ (COLUMN.index col)) as [[rank idx]|] eqn:Hfind.
  - injection Hfirst as <- <-. rewrite Hcol, Hfind. reflexivity.
  - injection Hfirst as <- <-.
    rewrite (at_int_insert _ _ _ _ Hcol). simpl COLUMN.index.
    rewrite list_find_app_r by exact Hfind.
    simpl list_find. rewrite decide_True by (split; reflexivity).
    simpl. rewrite (at_int_insert _ _ _ _ Hcol). reflexivity.
Qed.

Lemma Collab_expected_stable e g c :
  expected Collab.index_gtf Collab.get_all_attributes e g
    (columns_after Collab.index_gtf e g c)
  = expected Collab.index_gtf Collab.get_all_attributes e g c.
Proof.
  unfold expected, columns_after. destruct (key_of e) as [key|].
  - rewrite Collab_index_stable. reflexivity.
  - reflexivity.
Qed.

(** ** A call that runs alone, step by step, is the call *)

Lemma bind_ext {A B} (m : M A) (f g : A → M B) s :
  (∀ a s', f a s' = g a s') → (m ≫= f) s = (m ≫= g) s.
Proof. intros H. rewrite !bind_run. destruct (m s); [apply H|reflexivity]. Qed.

Lemma bind_assoc {A B C} (m : M A) (f : A → M B) (g : B → M C) s :
  ((m ≫= f) ≫= g) s = (m ≫= λ a, f a ≫= g) s.
Proof. rewrite !bind_run. destruct (m s); reflexivity. Qed.

Lemma bind_ret_r (m : M unit) s : (m;; mret ()) s = m s.
Proof. rewrite bind_run. destruct (m s) as [[] s'|]; reflexivity. Qed.

Lemma walk_visits_cons action k which level todo :
  walk_visits action ((k, which, level) :: todo)
  = (action k which level;; walk_visits action todo).
Proof. reflexivity. Qed.

Lemma walk_visits_app action l1 l2 s :
  walk_visits action (l1 ++ l2) s
  = (walk_visits action l1;; walk_visits action l2) s.
Proof.
  revert s. induction l1 as [|[[k which] level] l1 IH]; intros s;
    [reflexivity|].
  rewrite <- app_comm_cons, !walk_visits_cons, bind_assoc.
  apply bind_ext. intros _ s'. apply IH.
Qed.

Lemma trecurse_visits action t : ∀ level s,
  trecurse t action level s = walk_visits action (visits t level) s.
Proof.
  induction t as [|l IHl k r IHr]; intros level s; [reflexivity|].
  assert (Hinner :
    (action k preorder level;;
     trecurse l action (level + 1);;
     action k postorder level;;
     trecurse r action (level + 1);;
     action k endorder level) s
    = walk_visits action
        ((k, preorder, level) :: visits l (level + 1) ++
         (k, postorder, level) :: visits r (level + 1) ++
         [(k, endorder, level)]) s).
  { rewrite walk_visits_cons. apply bind_ext. intros _ s1.
    rewrite walk_visits_app, bind_run, IHl, <- bind_run.
    apply bind_ext. intros _ s2.
    rewrite walk_visits_cons. apply bind_ext. intros _ s3.
    rewrite walk_visits_app, bind_run, IHr, <- bind_run.
    apply bind_ext. intros _ s4.
    rewrite walk_visits_cons. symmetry. apply bind_ret_r. }
  destruct l as [|ll lk lr], r as [|rl rk rr]; try exact Hinner.
  cbn [trecurse visits]. rewrite walk_visits_cons.
  symmetry. apply bind_ret_r.
Qed.

Lemma twalk_visits action t s :
  twalk t action s
  = walk_visits action (match t with Null => [] | _ => visits t 0 end) s.
Proof. destruct t; [reflexivity|]. apply (trecurse_visits action _ 0 s). Qed.

Section Alone.

Variable index_gtf :
  GTF_DATA.t → string → list COLUMN.t → option INDEX_ID.t * list COLUMN.t.

Lemma run_returned fuel p s :
  run index_gtf fuel (Returned p) s = Returns (Returned p) s.
Proof. induction fuel as [|fuel IH]; [reflexivity|]. simpl. exact IH. Qed.

Lemma run_in_walk todo : ∀ fuel s p s',
  run index_gtf fuel (InWalk todo) s = Returns (Returned p) s' ↔
  (length todo < fuel)%nat ∧
  (walk_visits action_list todo;; read_vret) s = Returns p s'.
Proof.
  induction todo as [|v todo IH]; intros fuel s p s'.
  - destruct fuel as [|fuel]; simpl.
    + split; [discriminate|]. intros [H _]. lia.
    + change (run index_gtf fuel (Returned (vret s)) s
              = Returns (Returned p) s' ↔
              (0 < S fuel)%nat ∧ Returns (vret s) s = Returns p s').
      rewrite run_returned. split.
      * intros [= <- <-]. split; [lia|reflexivity].
      * intros [_ [= <- <-]]. reflexivity.
  - destruct fuel as [|fuel].
    + simpl. split; [discriminate|]. intros [H _]. lia.
    + change (run index_gtf (S fuel) (InWalk (v :: todo)) s)
        with (((action_list v.1.1 v.1.2 v.2;; mret (InWalk todo)) ≫=
               run index_gtf fuel) s).
      change ((walk_visits action_list (v :: todo);; read_vret) s)
        with (((action_list v.1.1 v.1.2 v.2;;
                walk_visits action_list todo);; read_vret) s).
      rewrite !bind_assoc, !bind_run.
      destruct (action_list v.1.1 v.1.2 v.2 s) as [[] s1|].
      * change ((mret (InWalk todo) ≫= run index_gtf fuel) s1)
          with (run index_gtf fuel (InWalk todo) s1).
        rewrite IH. simpl. split; intros [Hl Hr]; (split; [lia|exact Hr]).
      * split; [discriminate|]. intros [_ H]. discriminate.
Qed.

Lemma run_is_call g key s p s' :
  (∃ fuel, run index_gtf fuel (AtEntry g key) s = Returns (Returned p) s') ↔
  get_attribute_values_list index_gtf g key s = Returns p s'.
Proof.
  set (s1 := set_vret (Some (length (heap s)))
               (set_heap (heap s ++ [ {| TTEXT.size := 0; TTEXT.data := [] |} ])
                  s)).
  assert (Hcall : get_attribute_values_list index_gtf g key s
    = (index_id ← call_index_gtf index_gtf g key;
       root ← read_index_data index_id;
       twalk root action_list;; read_vret) s1) by reflexivity.
  assert (Hrun : ∀ fuel, run index_gtf (S (S fuel)) (AtEntry g key) s
    = (index_id ← call_index_gtf index_gtf g key;
       root ← read_index_data index_id;
       run index_gtf fuel
         (InWalk (match root with Null => [] | _ => visits root 0 end))) s1).
  { intros fuel.
    change (run index_gtf (S (S fuel)) (AtEntry g key) s)
      with (((index_id ← call_index_gtf index_gtf g key;
              root ← read_index_data index_id;
              mret (InWalk (match root with
                            | Null => [] | _ => visits root 0 end)))
             ≫= run index_gtf fuel) s1).
    rewrite bind_assoc. apply bind_ext. intros id s2.
    rewrite bind_assoc. reflexivity. }
  rewrite Hcall. clear Hcall.
  rewrite !bind_run in *.
  destruct (call_index_gtf index_gtf g key s1) as [id s2|] eqn:Hid.
  2:{ split; [|discriminate]. intros [[|[|fuel]] H]; try discriminate.
      rewrite Hrun, bind_run, Hid in H. discriminate. }
  rewrite bind_run.
  destruct (read_index_data id s2) as [root s3|] eqn:Hroot.
  2:{ split; [|discriminate]. intros [[|[|fuel]] H]; try discriminate.
      rewrite Hrun, bind_run, Hid, bind_run, Hroot in H. discriminate. }
  assert (Hw : (twalk root action_list;; read_vret) s3
    = (walk_visits action_list
         (match root with Null => [] | _ => visits root 0 end);;
       read_vret) s3).
  { rewrite !bind_run, twalk_visits. reflexivity. }
  fold (mbind (M:=M) (λ _ : (), read_vret) (twalk root action_list) s3).
  rewrite Hw. split.
  - intros [[|[|fuel]] H]; try discriminate.
    rewrite Hrun, bind_run, Hid, bind_run, Hroot in H.
    apply run_in_walk in H as [_ H]. exact H.
  - intros H.
    exists (S (S (S (length
              (match root with Null => [] | _ => visits root 0 end))))).
    rewrite Hrun, bind_run, Hid, bind_run, Hroot.
    apply run_in_walk. split; [lia|exact H].
Qed.

End Alone.

(** ** A schedule without overlap is two consecutive calls *)

Section Sequential.

Variable index_gtf :
  GTF_DATA.t → string → list COLUMN.t → option INDEX_ID.t * list COLUMN.t.

Lemma interleave_app l1 l2 a b s :
  interleave index_gtf (l1 ++ l2) a b s
  = (ab ← interleave index_gtf l1 a b;
     interleave index_gtf l2 ab.1 ab.2) s.
Proof.
  revert a b s. induction l1 as [|[] l1 IH]; intros a b s.
  - reflexivity.
  - simpl. rewrite bind_assoc. apply bind_ext. intros a' s'. apply IH.
  - simpl. rewrite bind_assoc. apply bind_ext. intros b' s'. apply IH.
Qed.

Lemma interleave_first n : ∀ a b s,
  interleave index_gtf (replicate n true) a b s
  = (a' ← run index_gtf n a; mret (a', b)) s.
Proof.
  induction n as [|n IH]; intros a b s; [reflexivity|].
  simpl. rewrite bind_assoc. apply bind_ext. intros a' s'. apply IH.
Qed.

Lemma interleave_second n : ∀ a b s,
  interleave index_gtf (replicate n false) a b s
  = (b' ← run index_gtf n b; mret (a, b')) s.
Proof.
  induction n as [|n IH]; intros a b s; [reflexivity|].
  simpl. rewrite bind_assoc. apply bind_ext. intros b' s'. apply IH.
Qed.

(** When the first call makes all its steps before the second makes any,
    the two calls are the two functions called one after the other. *)
Lemma schedule_without_overlap na nb ga ka gb kb s pa pb s' :
  interleave index_gtf (replicate na true ++ replicate nb false)
    (AtEntry ga ka) (AtEntry gb kb) s
  = Returns (Returned pa, Returned pb) s' →
  ∃ s1, get_attribute_values_list index_gtf ga ka s = Returns pa s1 ∧
        get_attribute_values_list index_gtf gb kb s1 = Returns pb s'.
Proof.
  rewrite interleave_app. intros H.
  apply bind_inv in H as ([a' b'] & s1 & H1 & H2).
  rewrite interleave_first in H1. rewrite interleave_second in H2.
  apply bind_inv in H1 as (a1 & s1' & Hra & H1).
  injection H1 as <- <- <-.
  apply bind_inv in H2 as (b1 & s2' & Hrb & H2).
  simpl in H2. injection H2 as -> -> <-.
  exists s1'. split; apply run_is_call; eauto.
Qed.

End Sequential.

(** ** The reference index is a search tree of the distinct values *)

Lemma strcmp_eq a b : strcmp a b = Eq → a = b.
Proof. apply String.compare_eq_iff. Qed.

Lemma strcmp_gt a b : strcmp a b = Gt → strcmp b a = Lt.
Proof.
  unfold strcmp. intros H. rewrite String.compare_antisym, H. reflexivity.
Qed.

Lemma index_row_tokens value t x :
  x ∈ ROW_LIST.token <$> inorder (Collab.index_row value t) ↔
  x = value ∨ x ∈ ROW_LIST.token <$> inorder t.
Proof.
  induction t as [|l IHl k r IHr]; simpl.
  - rewrite list_elem_of_singleton, elem_of_nil. tauto.
  - destruct (strcmp value (ROW_LIST.token k)) eqn:Hcmp; simpl;
      rewrite !fmap_app, !elem_of_app, !fmap_cons, !elem_of_cons; simpl.
    + apply strcmp_eq in Hcmp. subst value. tauto.
    + rewrite IHl. tauto.
    + rewrite IHr. tauto.
Qed.

Lemma index_row_all (P : string → Prop) value t :
  P value →
  Forall (λ x, P (ROW_LIST.token x)) (inorder t) →
  Forall (λ x, P (ROW_LIST.token x)) (inorder (Collab.index_row value t)).
Proof.
  intros Hv Ht. apply Forall_forall. intros d Hd.
  assert (Hin : ROW_LIST.token d
                ∈ ROW_LIST.token <$> inorder (Collab.index_row value t)).
  { apply list_elem_of_fmap. exists d. auto. }
  apply index_row_tokens in Hin as [-> | Hin]; [exact Hv|].
  apply list_elem_of_fmap in Hin as (d' & -> & Hd').
  rewrite Forall_forall in Ht. apply Ht, Hd'.
Qed.

Lemma index_row_bst value t : bst t → bst (Collab.index_row value t).
Proof.
  induction t as [|l IHl k r IHr]; simpl.
  - intros _. repeat split; constructor.
  - intros (Hl & Hr & Hlk & Hkr).
    destruct (strcmp value (ROW_LIST.token k)) eqn:Hcmp; simpl.
    + repeat split; assumption.
    + repeat split; auto.
      apply (index_row_all (λ a, strcmp a (ROW_LIST.token k) = Lt));
        assumption.
    + repeat split; auto.
      apply (index_row_all (λ a, strcmp (ROW_LIST.token k) a = Lt));
        [apply strcmp_gt, Hcmp|assumption].
Qed.

Lemma build_index_from_bst values : ∀ t,
  bst t → bst (foldl (λ t value, Collab.index_row value t) t values).
Proof.
  induction values as [|v values IH]; intros t Ht; [exact Ht|].
  simpl. apply IH, index_row_bst, Ht.
Qed.

Lemma build_index_bst values : bst (Collab.build_index values).
Proof. apply build_index_from_bst. exact I. Qed.

Lemma build_index_from_tokens values : ∀ t x,
  x ∈ ROW_LIST.token <$>
      inorder (foldl (λ t value, Collab.index_row value t) t values) ↔
  x ∈ values ∨ x ∈ ROW_LIST.token <$> inorder t.
Proof.
  induction values as [|v values IH]; intros t x; simpl.
  - rewrite elem_of_nil. tauto.
  - rewrite IH, index_row_tokens, elem_of_cons. tauto.
Qed.

Lemma bst_tokens_distinct t : bst t → NoDup (ROW_LIST.token <$> inorder t).
Proof.
  intros Ht.
  pose proof (sorted_rows_distinct _
                (rows_sorted _ (bst_inorder_sorted t Ht))) as H.
  rewrite <- list_fmap_compose in H. exact H.
Qed.

(** The index of a list of values has one node per distinct value. *)
Lemma build_index_distinct values :
  length (inorder (Collab.build_index values)) = length (remove_dups values).
Proof.
  rewrite <- (length_fmap ROW_LIST.token).
  apply Permutation_length, NoDup_Permutation.
  - apply bst_tokens_distinct, build_index_bst.
  - apply NoDup_remove_dups.
  - intros x. unfold Collab.build_index.
    rewrite build_index_from_tokens, elem_of_remove_dups. simpl.
    rewrite elem_of_nil. tauto.
Qed.

(** From a column table without index, the reference collaborator builds
    the index of the values of the key, and the call returns one row per
    distinct value. *)
Lemma Collab_index_of_fresh g key vs :
  Collab.values g key = Some vs →
  index_of Collab.index_gtf g key Collab.columns0
  = Some (Collab.build_index vs).
Proof.
  intros Hvs. unfold index_of, Collab.index_gtf. rewrite Hvs.
  unfold Collab.column_of.
  destruct (decide (key = "seqid"%string)); [reflexivity|].
  destruct (decide (key = "feature"%string)); reflexivity.
Qed.

Lemma reference_row_count e key g vs s :
  key_of e = Some key →
  Collab.values g key = Some vs →
  column s = Collab.columns0 →
  fits_int (length (remove_dups vs)) →
  ∃ p s' T,
    call Collab.index_gtf Collab.get_all_attributes e g s
    = Returns (Some p) s' ∧
    heap s' !! p = Some T ∧
    TTEXT.size T = Z.of_nat (length (remove_dups vs)) ∧
    length (TTEXT.data T) = length (remove_dups vs).
Proof.
  intros Hkey Hvs Hcol Hfit.
  assert (Hexp : expected Collab.index_gtf Collab.get_all_attributes e g
                   (column s) = Some (table_of (Collab.build_index vs))).
  { unfold expected. rewrite Hkey, Hcol, (Collab_index_of_fresh g key vs Hvs).
    simpl. rewrite decide_True by (rewrite build_index_distinct; exact Hfit).
    reflexivity. }
  eexists _, _, _. split; [apply call_returns, Hexp|].
  split; [apply after_call_lookup_new|].
  simpl. rewrite length_fmap, build_index_distinct. auto.
Qed.

(** * The claims of the specification *)

(** C1: for every dataset and every key whose index exists (the identifier
    [index_gtf] returns designates a search tree [t] of the column table,
    whose rows fit the allocator), each index-based entry point returns a
    fresh table that holds exactly one row [text of nb_row; token] per
    node of [t], in the order of the in-order traversal: the row count is
    the number of entries of the index, the values of the rows ascend
    strictly in the order of the index, and so are pairwise distinct. *)
Theorem materialize_from_index_in_order
    (index_gtf : GTF_DATA.t → string → list COLUMN.t
                 → option INDEX_ID.t * list COLUMN.t)
    (get_all_attributes : GTF_DATA.t → option STRING_LIST.t)
    (e : entry) (key : string) (g : GTF_DATA.t) (s : state) (t : tree) :
  key_of e = Some key →
  index_of index_gtf g key (column s) = Some t →
  bst t →
  fits_int (length (inorder t)) →
  ∃ p s' T,
    call index_gtf get_all_attributes e g s = Returns (Some p) s' ∧
    heap s' !! p = Some T ∧
    TTEXT.data T = row_of <$> inorder t ∧
    TTEXT.size T = Z.of_nat (length (inorder t)) ∧
    length (TTEXT.data T) = length (inorder t) ∧
    StronglySorted lt_row (TTEXT.data T) ∧
    NoDup (value_of <$> TTEXT.data T).
Proof.
  intros Hkey Hidx Hbst Hfit.
  assert (Hexp : expected index_gtf get_all_attributes e g (column s)
                 = Some (table_of t)).
  { unfold expected. rewrite Hkey, Hidx. simpl.
    rewrite decide_True by exact Hfit. reflexivity. }
  exists (length (heap s)),
    (after_call (columns_after index_gtf e g (column s)) (table_of t) s),
    (table_of t).
  split; [apply call_returns, Hexp|].
  assert (Hsorted : StronglySorted lt_row (row_of <$> inorder t))
    by apply rows_sorted, bst_inorder_sorted, Hbst.
  split; [|repeat split].
  - simpl. rewrite lookup_app_r by reflexivity.
    rewrite Nat.sub_diag. reflexivity.
  - simpl. apply length_fmap.
  - exact Hsorted.
  - apply sorted_rows_distinct, Hsorted.
Qed.

Lemma materialize_from_index_in_order_witness :
  ∃ p s' T,
    call Collab.index_gtf Collab.get_all_attributes list_feature_values
         Sample.genes Collab.state0 = Returns (Some p) s' ∧
    heap s' !! p = Some T ∧
    TTEXT.data T = row_of <$> inorder Sample.feature_index ∧
    TTEXT.size T = Z.of_nat (length (inorder Sample.feature_index)) ∧
    length (TTEXT.data T) = length (inorder Sample.feature_index) ∧
    StronglySorted lt_row (TTEXT.data T) ∧
    NoDup (value_of <$> TTEXT.data T).
Proof.
  apply (materialize_from_index_in_order Collab.index_gtf
           Collab.get_all_attributes list_feature_values "feature"
           Sample.genes Collab.state0 Sample.feature_index).
  - reflexivity.
  - reflexivity.
  - simpl. repeat split; repeat constructor.
  - unfold fits_int. simpl. unfold sizeof_ptr, INT_MAX. lia.
Defined.

(** C2: for every dataset whose enumerated attribute names form a proper
    string list ([nb] is the length of [list]), [get_attribute_list]
    returns a fresh table with exactly one single-field row [name] per
    enumerated name, in the order of the enumeration; its row count is the
    length of the name list, and it has no duplicate row when the
    enumeration has no duplicate name. *)
Theorem attribute_list_one_row_per_name
    (get_all_attributes : GTF_DATA.t → option STRING_LIST.t)
    (g : GTF_DATA.t) (s : state) (sl : STRING_LIST.t) :
  get_all_attributes g = Some sl →
  STRING_LIST.nb sl = Z.of_nat (length (STRING_LIST.list sl)) →
  ∃ p s' T,
    get_attribute_list get_all_attributes g s = Returns (Some p) s' ∧
    heap s' !! p = Some T ∧
    TTEXT.data T = (λ name, [name]) <$> STRING_LIST.list sl ∧
    TTEXT.size T = Z.of_nat (length (STRING_LIST.list sl)) ∧
    length (TTEXT.data T) = length (STRING_LIST.list sl) ∧
    (NoDup (STRING_LIST.list sl) → NoDup (TTEXT.data T)).
Proof.
  intros Hsl Hnb.
  set (names := STRING_LIST.list sl) in *.
  assert (Htake : take (Z.to_nat (STRING_LIST.nb sl)) names = names).
  { rewrite Hnb, Nat2Z.id. apply firstn_all. }
  exists (length (heap s)), (after_call (column s) (table_of_names names) s),
    (table_of_names names).
  split.
  { rewrite <- Htake at 1.
    apply attribute_list_returns; [exact Hsl|fold names; lia]. }
  split; [|repeat split].
  - simpl. rewrite lookup_app_r by reflexivity.
    rewrite Nat.sub_diag. reflexivity.
  - simpl. apply length_fmap.
  - intros Hnd. simpl. apply NoDup_fmap_2; [|exact Hnd].
    intros a b [= ->]. reflexivity.
Qed.

Lemma attribute_list_one_row_per_name_witness :
  ∃ p s' T,
    get_attribute_list Collab.get_all_attributes Sample.genes Collab.state0
    = Returns (Some p) s' ∧
    heap s' !! p = Some T ∧
    TTEXT.data T = [["gene_id"]; ["exon_number"]]%string ∧
    TTEXT.size T = 2 ∧
    length (TTEXT.data T) = 2%nat ∧
    (NoDup ["gene_id"; "exon_number"]%string → NoDup (TTEXT.data T)).
Proof.
  apply (attribute_list_one_row_per_name Collab.get_all_attributes
           Sample.genes Collab.state0
           {| STRING_LIST.list := ["gene_id"; "exon_number"]%string;
              STRING_LIST.nb := 2 |}).
  - reflexivity.
  - reflexivity.
Defined.

(** C3, as the code has it: get_list.c has no failure path. For a key
    that cannot be indexed ([index_gtf] returns no identifier, or one that
    designates no index of the column table) the entry point dereferences
    what it was given, so the call has no defined outcome: no table is
    returned, partial or empty, and no failure is reported either. No
    call of any entry point ever reports a failure to its caller. *)
Theorem no_failure_path
    (index_gtf : GTF_DATA.t → string → list COLUMN.t
                 → option INDEX_ID.t * list COLUMN.t)
    (get_all_attributes : GTF_DATA.t → option STRING_LIST.t)
    (e : entry) (key : string) (g : GTF_DATA.t) (s : state) :
  key_of e = Some key →
  index_of index_gtf g key (column s) = None →
  call index_gtf get_all_attributes e g s = Undefined ∧
  result_of (call index_gtf get_all_attributes e g s) = None ∧
  ∀ e' g' s' err,
    result_of (call index_gtf get_all_attributes e' g' s')
    ≠ Some (Failure err).
Proof.
  intros Hkey Hidx.
  assert (Hundef : call index_gtf get_all_attributes e g s = Undefined).
  { destruct (call index_gtf get_all_attributes e g s) as [r s'|] eqn:H;
      [|reflexivity].
    apply call_inv in H as (T & Hexp & _).
    unfold expected in Hexp. rewrite Hkey, Hidx in Hexp. discriminate. }
  split; [exact Hundef|]. split; [rewrite Hundef; reflexivity|].
  intros e' g' s' err.
  destruct (call index_gtf get_all_attributes e' g' s') as [r s''|] eqn:H;
    [|discriminate].
  apply call_inv in H as (T & _ & -> & ->).
  simpl. rewrite lookup_app_r by reflexivity.
  rewrite Nat.sub_diag. discriminate.
Qed.

Lemma no_failure_path_witness :
  let run := call Collab.index_gtf Collab.get_all_attributes in
  run (list_attribute_values "transcript_id") Sample.genes Collab.state0
  = Undefined ∧
  result_of (run (list_attribute_values "transcript_id") Sample.genes
               Collab.state0) = None ∧
  ∀ e' g' s' err, result_of (run e' g' s') ≠ Some (Failure err).
Proof.
  intros run.
  apply (no_failure_path Collab.index_gtf Collab.get_all_attributes
           (list_attribute_values "transcript_id") "transcript_id"
           Sample.genes Collab.state0).
  - reflexivity.
  - reflexivity.
Defined.

(** C3 as stated fails: the dataset [Sample.genes] has no attribute
    transcript_id, the collaborator returns no identifier for it, and the
    caller of [get_attribute_values_list] is not given the failure
    UnknownKey. *)
Lemma unknown_key_is_not_reported :
  (Collab.index_gtf Sample.genes "transcript_id" Collab.columns0).1 = None ∧
  result_of (get_attribute_values_list Collab.index_gtf Sample.genes
               "transcript_id" Collab.state0)
  ≠ Some (Failure UnknownKey).
Proof. split; [reflexivity|]. vm_compute. discriminate. Qed.

(** C4: for every dataset whose index for the requested key is empty (the
    tree [index_gtf] designates is NULL), each index-based entry point
    returns a fresh table of zero rows: what the caller gets is this empty
    table, which is not the failure UnknownKey. *)
Theorem empty_index_gives_empty_table
    (index_gtf : GTF_DATA.t → string → list COLUMN.t
                 → option INDEX_ID.t * list COLUMN.t)
    (get_all_attributes : GTF_DATA.t → option STRING_LIST.t)
    (e : entry) (key : string) (g : GTF_DATA.t) (s : state) :
  key_of e = Some key →
  index_of index_gtf g key (column s) = Some Null →
  let empty := {| TTEXT.size := 0; TTEXT.data := [] |} in
  (∃ p s',
     call index_gtf get_all_attributes e g s = Returns (Some p) s' ∧
     heap s' !! p = Some empty) ∧
  result_of (call index_gtf get_all_attributes e g s) = Some (Table empty) ∧
  result_of (call index_gtf get_all_attributes e g s)
  ≠ Some (Failure UnknownKey).
Proof.
  intros Hkey Hidx empty.
  assert (Hexp : expected index_gtf get_all_attributes e g (column s)
                 = Some empty).
  { unfold expected. rewrite Hkey, Hidx. reflexivity. }
  assert (Hrun := call_returns index_gtf get_all_attributes e g s empty Hexp).
  assert (Hlast : (heap s ++ [empty]) !! length (heap s) = Some empty).
  { rewrite lookup_app_r by reflexivity. rewrite Nat.sub_diag. reflexivity. }
  split; [|split].
  - eexists _, _. split; [exact Hrun|exact Hlast].
  - rewrite Hrun. simpl. rewrite Hlast. reflexivity.
  - rewrite Hrun. simpl. rewrite Hlast. discriminate.
Qed.

Lemma empty_index_gives_empty_table_witness :
  let empty := {| TTEXT.size := 0; TTEXT.data := [] |} in
  (∃ p s',
     call Collab.index_gtf Collab.get_all_attributes list_feature_values
          Sample.no_rows Collab.state0 = Returns (Some p) s' ∧
     heap s' !! p = Some empty) ∧
  result_of (call Collab.index_gtf Collab.get_all_attributes
               list_feature_values Sample.no_rows Collab.state0)
  = Some (Table empty) ∧
  result_of (call Collab.index_gtf Collab.get_all_attributes
               list_feature_values Sample.no_rows Collab.state0)
  ≠ Some (Failure UnknownKey).
Proof.
  apply (empty_index_gives_empty_table Collab.index_gtf
           Collab.get_all_attributes list_feature_values "feature"
           Sample.no_rows Collab.state0).
  - reflexivity.
  - reflexivity.
Defined.

(** C5: whenever a call to one of the four entry points returns, it
    returns a table all of whose rows have the same number of fields: two
    for the index-based entry points, one for [get_attribute_list]. *)
Theorem rows_share_arity
    (index_gtf : GTF_DATA.t → string → list COLUMN.t
                 → option INDEX_ID.t * list COLUMN.t)
    (get_all_attributes : GTF_DATA.t → option STRING_LIST.t)
    (e : entry) (g : GTF_DATA.t) (s : state) (p : option nat) (s' : state) :
  call index_gtf get_all_attributes e g s = Returns p s' →
  ∃ T, table_at s' p = Some T ∧
       Forall (λ r, length r = arity e) (TTEXT.data T).
Proof.
  intros H. apply call_inv in H as (T & Hexp & -> & ->).
  exists T. split.
  { simpl. rewrite lookup_app_r by reflexivity.
    rewrite Nat.sub_diag. reflexivity. }
  destruct (key_of e) as [key|] eqn:Hkey.
  - destruct (expected_index_based _ _ e key g _ T Hkey Hexp) as (t & _ & ->).
    simpl. apply Forall_fmap, Forall_forall.
    intros d _. destruct e; try discriminate; reflexivity.
  - unfold expected in Hexp. rewrite Hkey in Hexp.
    destruct e; try discriminate.
    destruct (get_all_attributes g) as [sl|]; [|discriminate].
    simpl in Hexp. destruct (decide _); [|discriminate].
    injection Hexp as <-. simpl. apply Forall_fmap, Forall_forall.
    intros n _. reflexivity.
Qed.

Lemma rows_share_arity_witness :
  ∃ T, table_at (after_call Collab.columns0
                   (table_of_names ["gene_id"; "exon_number"]%string)
                   Collab.state0) (Some 0%nat) = Some T ∧
       Forall (λ r, length r = arity list_attribute_names) (TTEXT.data T).
Proof.
  apply (rows_share_arity Collab.index_gtf Collab.get_all_attributes
           list_attribute_names Sample.genes Collab.state0).
  reflexivity.
Defined.

(** C6: a call repeated on an unchanged dataset (the collaborators are to
    hand out the same index or the same names again) returns a second,
    distinct table whose size and rows, in their order, are those of the
    first. *)
Theorem rerun_gives_same_table
    (index_gtf : GTF_DATA.t → string → list COLUMN.t
                 → option INDEX_ID.t * list COLUMN.t)
    (get_all_attributes : GTF_DATA.t → option STRING_LIST.t)
    (e : entry) (g : GTF_DATA.t) (s : state)
    (p1 : option nat) (s1 : state) (p2 : option nat) (s2 : state) :
  call index_gtf get_all_attributes e g s = Returns p1 s1 →
  call index_gtf get_all_attributes e g s1 = Returns p2 s2 →
  expected index_gtf get_all_attributes e g (column s1)
  = expected index_gtf get_all_attributes e g (column s) →
  p1 ≠ p2 ∧
  ∃ T, table_at s2 p1 = Some T ∧ table_at s2 p2 = Some T ∧
       table_at s1 p1 = Some T.
Proof.
  intros H1 H2 Hsame.
  apply call_inv in H1 as (T1 & Hexp1 & -> & ->).
  apply call_inv in H2 as (T2 & Hexp2 & -> & ->).
  rewrite Hsame, Hexp1 in Hexp2. injection Hexp2 as <-.
  split.
  - simpl. rewrite length_app. simpl. intros [= Heq]. lia.
  - exists T1. rewrite !table_at_some.
    split; [|split].
    + rewrite after_call_lookup_old
        by (simpl; rewrite length_app; simpl; lia).
      apply after_call_lookup_new.
    + apply after_call_lookup_new.
    + apply after_call_lookup_new.
Qed.

Lemma rerun_gives_same_table_witness :
  let run := call Collab.index_gtf Collab.get_all_attributes
               list_feature_values Sample.genes in
  let s1 := state_after run Collab.state0 in
  let s2 := state_after run s1 in
  Some 0%nat ≠ Some 1%nat ∧
  ∃ T, table_at s2 (Some 0%nat) = Some T ∧
       table_at s2 (Some 1%nat) = Some T ∧
       table_at s1 (Some 0%nat) = Some T.
Proof.
  intros run s1 s2.
  apply (rerun_gives_same_table Collab.index_gtf Collab.get_all_attributes
           list_feature_values Sample.genes Collab.state0
           (Some 0%nat) s1 (Some 1%nat) s2).
  - reflexivity.
  - reflexivity.
  - reflexivity.
Defined.

(** C7, as the code has it: a call that returns has touched neither the
    dataset, which it only hands to its collaborators, nor the index: the
    column table is the one the collaborator left, in it the identifier
    still designates the tree that was walked, every table allocated
    before is as it was, and the heap has grown by the one table returned.
    Constructing that table is not the only effect: the call has
    overwritten the global [vret], which now points to the new table. *)
Theorem entry_points_only_build_table
    (index_gtf : GTF_DATA.t → string → list COLUMN.t
                 → option INDEX_ID.t * list COLUMN.t)
    (get_all_attributes : GTF_DATA.t → option STRING_LIST.t)
    (e : entry) (g : GTF_DATA.t) (s : state) (p : option nat) (s' : state) :
  call index_gtf get_all_attributes e g s = Returns p s' →
  column s' = columns_after index_gtf e g (column s) ∧
  (key_of e = None → column s' = column s) ∧
  (∀ key, key_of e = Some key →
          index_data (column s') (index_gtf g key (column s)).1
          = index_of index_gtf g key (column s)) ∧
  (∀ q, (q < length (heap s))%nat → heap s' !! q = heap s !! q) ∧
  (∃ T, heap s' = heap s ++ [T]) ∧
  p = Some (length (heap s)) ∧ vret s' = p.
Proof.
  intros H. apply call_inv in H as (T & Hexp & -> & ->).
  split; [reflexivity|]. split; [|split; [|split; [|split; [|split]]]].
  - intros Hkey. simpl. unfold columns_after. rewrite Hkey. reflexivity.
  - intros key Hkey. simpl. unfold columns_after, index_of. rewrite Hkey.
    destruct (index_gtf g key (column s)) as [id c']. reflexivity.
  - intros q Hq. apply after_call_lookup_old, Hq.
  - exists T. reflexivity.
  - reflexivity.
  - reflexivity.
Qed.

Lemma entry_points_only_build_table_witness :
  let e := list_attribute_values "gene_id" in
  let s := Collab.state0 in
  let s' := state_after (call Collab.index_gtf Collab.get_all_attributes e
                           Sample.genes) s in
  column s' = columns_after Collab.index_gtf e Sample.genes (column s) ∧
  (key_of e = None → column s' = column s) ∧
  (∀ key, key_of e = Some key →
          index_data (column s')
            (Collab.index_gtf Sample.genes key (column s)).1
          = index_of Collab.index_gtf Sample.genes key (column s)) ∧
  (∀ q, (q < length (heap s))%nat → heap s' !! q = heap s !! q) ∧
  (∃ T, heap s' = heap s ++ [T]) ∧
  Some 0%nat = Some (length (heap s)) ∧ vret s' = Some 0%nat.
Proof.
  intros e s s'.
  apply (entry_points_only_build_table Collab.index_gtf
           Collab.get_all_attributes e Sample.genes s (Some 0%nat) s').
  reflexivity.
Defined.

(** C7 as stated fails: the construction of the table is not the only
    effect of a call. [get_attribute_list], which leaves the column table
    alone, returns from the initial state with the global [vret], NULL
    before, set to the new table. *)
Lemma call_overwrites_vret :
  let run := call Collab.index_gtf Collab.get_all_attributes
               list_attribute_names Sample.genes in
  let s' := state_after run Collab.state0 in
  run Collab.state0 = Returns (Some 0%nat) s' ∧
  vret Collab.state0 = None ∧
  vret s' = Some 0%nat ∧
  ¬ builds_only_a_table Collab.state0 s'.
Proof.
  intros run s'. split; [reflexivity|]. split; [reflexivity|].
  split; [reflexivity|].
  intros (_ & Hvret & _). vm_compute in Hvret. discriminate Hvret.
Qed.

(** C8, as the code has it: for a dataset whose feature column reads
    exon, exon, gene, exon, indexed from a column table without index,
    [get_feature_list] returns exactly the rows [3; exon] and [1; gene], in
    that order, the ascending order of the values. *)
Theorem feature_list_of_sample
    (g : GTF_DATA.t) (s : state) :
  GTF_ROW.feature <$> GTF_DATA.data g
  = ["exon"; "exon"; "gene"; "exon"]%string →
  column s = Collab.columns0 →
  ∃ p s',
    get_feature_list Collab.index_gtf g s = Returns (Some p) s' ∧
    heap s' !! p
    = Some {| TTEXT.size := 2;
              TTEXT.data := [["3"; "exon"]; ["1"; "gene"]]%string |}.
Proof.
  intros Hfeat Hcol.
  assert (Hexp : expected Collab.index_gtf Collab.get_all_attributes
                   list_feature_values g (column s)
                 = Some (table_of Sample.feature_index)).
  { unfold expected, index_of, Collab.index_gtf, Collab.values. simpl key_of.
    cbv beta iota.
    rewrite decide_False by discriminate.
    rewrite decide_True by reflexivity.
    rewrite Hfeat, Hcol. reflexivity. }
  eexists _, _. split.
  - apply (call_returns Collab.index_gtf Collab.get_all_attributes
             list_feature_values g s _ Hexp).
  - apply after_call_lookup_new.
Qed.

Lemma feature_list_of_sample_witness :
  ∃ p s',
    get_feature_list Collab.index_gtf Sample.genes Collab.state0
    = Returns (Some p) s' ∧
    heap s' !! p
    = Some {| TTEXT.size := 2;
              TTEXT.data := [["3"; "exon"]; ["1"; "gene"]]%string |}.
Proof.
  apply (feature_list_of_sample Sample.genes Collab.state0).
  - reflexivity.
  - reflexivity.
Defined.

(** C8 as stated fails: on that dataset the rows [get_feature_list]
    returns are not [1; gene] followed by [3; exon]. *)
Lemma feature_list_not_gene_first :
  ¬ ∃ p s' T,
      get_feature_list Collab.index_gtf Sample.genes Collab.state0
      = Returns (Some p) s' ∧
      heap s' !! p = Some T ∧
      TTEXT.data T = [["1"; "gene"]; ["3"; "exon"]]%string.
Proof.
  intros (p & s' & T & Hrun & HT & Hrows).
  vm_compute in Hrun. injection Hrun as <- <-.
  vm_compute in HT. injection HT as <-.
  discriminate Hrows.
Qed.

(** C9, as the code has it: two calls that do not overlap, the second
    starting in the state the first has left, do not corrupt each other's
    tables. They return distinct tables; the first holds exactly the rows
    of its own index or name list, and still does after the second call;
    the second holds exactly the rows of its own. *)
Theorem consecutive_calls_do_not_interfere
    (index_gtf : GTF_DATA.t → string → list COLUMN.t
                 → option INDEX_ID.t * list COLUMN.t)
    (get_all_attributes : GTF_DATA.t → option STRING_LIST.t)
    (ea eb : entry) (ga gb : GTF_DATA.t) (s : state)
    (pa : option nat) (s1 : state) (pb : option nat) (s2 : state) :
  call index_gtf get_all_attributes ea ga s = Returns pa s1 →
  call index_gtf get_all_attributes eb gb s1 = Returns pb s2 →
  ∃ Ta Tb,
    pa ≠ pb ∧
    expected index_gtf get_all_attributes ea ga (column s) = Some Ta ∧
    expected index_gtf get_all_attributes eb gb (column s1) = Some Tb ∧
    table_at s1 pa = Some Ta ∧
    table_at s2 pa = Some Ta ∧
    table_at s2 pb = Some Tb.
Proof.
  intros Ha Hb.
  apply call_inv in Ha as (Ta & Hexpa & -> & ->).
  apply call_inv in Hb as (Tb & Hexpb & -> & ->).
  exists Ta, Tb. rewrite !table_at_some.
  split; [|split; [exact Hexpa|split; [exact Hexpb|split; [|split]]]].
  - simpl. rewrite length_app. simpl. intros [= Heq]. lia.
  - apply after_call_lookup_new.
  - rewrite after_call_lookup_old
      by (simpl; rewrite length_app; simpl; lia).
    apply after_call_lookup_new.
  - apply after_call_lookup_new.
Qed.

Lemma consecutive_calls_do_not_interfere_witness :
  let first := call Collab.index_gtf Collab.get_all_attributes
                 list_feature_values Sample.genes in
  let second := call Collab.index_gtf Collab.get_all_attributes
                  list_seqid_values Sample.genes in
  let s1 := state_after first Collab.state0 in
  let s2 := state_after second s1 in
  ∃ Ta Tb,
    Some 0%nat ≠ Some 1%nat ∧
    expected Collab.index_gtf Collab.get_all_attributes list_feature_values
      Sample.genes (column Collab.state0) = Some Ta ∧
    expected Collab.index_gtf Collab.get_all_attributes list_seqid_values
      Sample.genes (column s1) = Some Tb ∧
    table_at s1 (Some 0%nat) = Some Ta ∧
    table_at s2 (Some 0%nat) = Some Ta ∧
    table_at s2 (Some 1%nat) = Some Tb.
Proof.
  intros first second s1 s2.
  apply (consecutive_calls_do_not_interfere Collab.index_gtf
           Collab.get_all_attributes list_feature_values list_seqid_values
           Sample.genes Sample.genes Collab.state0
           (Some 0%nat) s1 (Some 1%nat) s2).
  - reflexivity.
  - reflexivity.
Defined.

(** C9 as stated fails: two calls on two keys of one dataset that overlap
    (the second assigns [vret] before the first has walked its index) are
    handed the same table, which holds the rows of both. *)
Lemma overlapping_calls_share_vret :
  ¬ isolated Collab.index_gtf Sample.genes "feature" Sample.genes "seqid"
      Collab.state0.
Proof.
  intros H.
  destruct (H ([true; false] ++ replicate 6 true ++ replicate 6 false)
              (Some 1%nat) (Some 1%nat)
              (state_after
                 (interleave Collab.index_gtf
                    ([true; false] ++ replicate 6 true ++ replicate 6 false)
                    (AtEntry Sample.genes "feature")
                    (AtEntry Sample.genes "seqid")) Collab.state0)
              eq_refl) as [Ha _].
  vm_compute in Ha. discriminate Ha.
Qed.

(** C10: [get_feature_list] is [get_attribute_values_list] at the key
    "feature" and [get_seqid_list] is [get_attribute_values_list] at the
    key "seqid": from every state they have the same outcome, the same
    pointer to the same table in the same final state. *)
Theorem index_entry_points_are_one_operation
    (index_gtf : GTF_DATA.t → string → list COLUMN.t
                 → option INDEX_ID.t * list COLUMN.t)
    (g : GTF_DATA.t) (s : state) :
  get_feature_list index_gtf g s
  = get_attribute_values_list index_gtf g "feature" s ∧
  get_seqid_list index_gtf g s
  = get_attribute_values_list index_gtf g "seqid" s.
Proof. split; reflexivity. Qed.

(** * Further properties of the code *)

(** ** The count printed into [tmp] *)

Lemma string_of_uint_length u :
  String.length (NilEmpty.string_of_uint u) = Decimal.nb_digits u.
Proof. induction u; simpl; congruence. Qed.

Lemma nb_digits_double u :
  (Decimal.nb_digits (Decimal.Little.double u) ≤ S (Decimal.nb_digits u))%nat ∧
  (Decimal.nb_digits (Decimal.Little.succ_double u)
   ≤ S (Decimal.nb_digits u))%nat.
Proof. induction u as [|u [IH1 IH2]|u [IH1 IH2]|u [IH1 IH2]|u [IH1 IH2]
                       |u [IH1 IH2]|u [IH1 IH2]|u [IH1 IH2]|u [IH1 IH2]
                       |u [IH1 IH2]|u [IH1 IH2]]; simpl; lia.
Qed.

Lemma nb_digits_to_little_uint p :
  (Decimal.nb_digits (Pos.to_little_uint p) ≤ Pos.size_nat p)%nat.
Proof.
  induction p as [p IH|p IH|]; simpl; [| |lia].
  - pose proof (nb_digits_double (Pos.to_little_uint p)) as [_ H]. lia.
  - pose proof (nb_digits_double (Pos.to_little_uint p)) as [H _]. lia.
Qed.

Lemma size_nat_bound p : ∀ n : nat,
  Z.pos p < 2 ^ Z.of_nat n → (Pos.size_nat p ≤ n)%nat.
Proof.
  induction p as [p IH|p IH|]; intros [|n] H; simpl.
  - simpl in H. lia.
  - rewrite Nat2Z.inj_succ, Z.pow_succ_r in H by lia.
    specialize (IH n). lia.
  - simpl in H. lia.
  - rewrite Nat2Z.inj_succ, Z.pow_succ_r in H by lia.
    specialize (IH n). lia.
  - simpl in H. lia.
  - lia.
Qed.

Lemma pos_text_length p :
  Z.pos p < 2 ^ Z.of_nat 32 →
  (String.length (NilZero.string_of_uint (Pos.to_uint p)) ≤ 32)%nat.
Proof.
  intros Hp. apply size_nat_bound in Hp.
  pose proof (DecimalPos.Unsigned.to_uint_nonnil p) as Hnn.
  unfold NilZero.string_of_uint.
  destruct (Pos.to_uint p) eqn:Hu; [congruence|..];
    rewrite <- Hu, string_of_uint_length; unfold Pos.to_uint;
    rewrite DecimalFacts.nb_digits_rev;
    pose proof (nb_digits_to_little_uint p); clear Hu Hnn; lia.
Qed.

(** X1: the decimal text of any [int] fits the buffer [tmp] of
    [action_list] with its closing NUL, so the [sprintf] never writes past
    the hundred characters of the buffer. *)
Theorem count_text_fits_tmp (n : Z) :
  INT_MIN ≤ n ≤ INT_MAX →
  Z.of_nat (String.length (sprintf_d n)) + 1 ≤ tmp_size.
Proof.
  unfold INT_MIN, INT_MAX, tmp_size, sprintf_d. intros [Hlo Hhi].
  assert (Hpow : 2 ^ Z.of_nat 32 = 4294967296) by reflexivity.
  destruct n as [|p|p]; cbn [Z.to_int NilZero.string_of_int String.length].
  - vm_compute. discriminate.
  - pose proof (pos_text_length p ltac:(rewrite Hpow; lia)) as Hlen.
    clear Hlo Hhi Hpow. lia.
  - pose proof (pos_text_length p ltac:(rewrite Hpow; lia)) as Hlen.
    clear Hlo Hhi Hpow. lia.
Qed.

Lemma count_text_fits_tmp_witness :
  Z.of_nat (String.length (sprintf_d INT_MIN)) + 1 ≤ tmp_size.
Proof.
  apply (count_text_fits_tmp INT_MIN).
  vm_compute. split; discriminate.
Defined.

(** ** Rows read back *)

Lemma entry_of_row_of (d : ROW_LIST.t) : entry_of_row (row_of d) = Some d.
Proof.
  unfold entry_of_row, row_of, sprintf_d.
  rewrite NilZero.isi.
  - simpl. rewrite DecimalZ.of_to. destruct d; reflexivity.
  - destruct (ROW_LIST.nb_row d) as [|q|q]; simpl; try discriminate.
    intros [= H]. exact (DecimalPos.Unsigned.to_uint_nonnil q H).
  - destruct (ROW_LIST.nb_row d) as [|q|q]; simpl; try discriminate.
    intros [= H]. exact (DecimalPos.Unsigned.to_uint_nonnil q H).
Qed.

(** X2: the table an index-based entry point returns loses nothing of the
    index: read back row by row, count as a decimal number and value, it
    gives the entries of the index, token and row count, in their
    order. *)
Theorem table_reads_back_as_index
    (index_gtf : GTF_DATA.t → string → list COLUMN.t
                 → option INDEX_ID.t * list COLUMN.t)
    (get_all_attributes : GTF_DATA.t → option STRING_LIST.t)
    (e : entry) (key : string) (g : GTF_DATA.t) (s : state)
    (p : option nat) (s' : state) :
  key_of e = Some key →
  call index_gtf get_all_attributes e g s = Returns p s' →
  ∃ T t,
    table_at s' p = Some T ∧
    index_of index_gtf g key (column s) = Some t ∧
    mapM entry_of_row (TTEXT.data T) = Some (inorder t).
Proof.
  intros Hkey H. apply call_inv in H as (T & Hexp & -> & ->).
  destruct (expected_index_based _ _ e key g _ T Hkey Hexp) as (t & Ht & ->).
  exists (table_of t), t. split; [apply after_call_lookup_new|].
  split; [exact Ht|].
  simpl. apply mapM_Some.
  induction (inorder t) as [|d l IH]; [constructor|].
  rewrite fmap_cons. constructor; [apply entry_of_row_of|exact IH].
Qed.

Lemma table_reads_back_as_index_witness :
  let run := call Collab.index_gtf Collab.get_all_attributes
               list_seqid_values Sample.genes in
  ∃ T t,
    table_at (state_after run Collab.state0) (Some 0%nat) = Some T ∧
    index_of Collab.index_gtf Sample.genes "seqid" (column Collab.state0)
    = Some t ∧
    mapM entry_of_row (TTEXT.data T) = Some (inorder t).
Proof.
  intros run.
  apply (table_reads_back_as_index Collab.index_gtf Collab.get_all_attributes
           list_seqid_values "seqid" Sample.genes Collab.state0
           (Some 0%nat) (state_after run Collab.state0)).
  - reflexivity.
  - reflexivity.
Defined.

(** ** The callback *)

(** X3: [action_list] stores once per node. On the visit before the
    subtrees and on the one after them it leaves the state as it is; on
    the visit between the subtrees and on the visit of a leaf, with [vret]
    on a table whose [size] counts its rows and with room for one more, it
    appends the one row [text of nb_row; token] after the rows already
    there and adds one to [size]. *)
Theorem action_list_stores_once_per_node
    (d : ROW_LIST.t) (depth : Z) (s : state) (p : nat) (v : TTEXT.t) :
  vret s = Some p →
  heap s !! p = Some v →
  consistent v →
  (TTEXT.size v + 1) * sizeof_ptr ≤ INT_MAX →
  let v' := {| TTEXT.size := TTEXT.size v + 1;
               TTEXT.data := TTEXT.data v ++
                 [[sprintf_d (ROW_LIST.nb_row d); ROW_LIST.token d]] |} in
  action_list d preorder depth s = Returns () s ∧
  action_list d endorder depth s = Returns () s ∧
  action_list d postorder depth s = Returns () (with_table p v' s) ∧
  action_list d leaf depth s = Returns () (with_table p v' s).
Proof.
  intros Hp Hv Hc Hroom v'.
  split; [reflexivity|]. split; [reflexivity|].
  split.
  - apply (action_list_appends d postorder depth s p v); auto.
  - apply (action_list_appends d leaf depth s p v); auto.
Qed.

Lemma action_list_stores_once_per_node_witness :
  let d := {| ROW_LIST.token := "exon"; ROW_LIST.nb_row := 3 |} in
  let s := {| column := []; vret := Some 0%nat;
              heap := [ {| TTEXT.size := 1;
                           TTEXT.data := [["7"; "CDS"]]%string |} ] |} in
  let v' := {| TTEXT.size := 2;
               TTEXT.data := [["7"; "CDS"]; ["3"; "exon"]]%string |} in
  action_list d preorder 0 s = Returns () s ∧
  action_list d endorder 0 s = Returns () s ∧
  action_list d postorder 0 s = Returns () (with_table 0 v' s) ∧
  action_list d leaf 0 s = Returns () (with_table 0 v' s).
Proof.
  intros d s v'.
  apply (action_list_stores_once_per_node d 0 s 0
           {| TTEXT.size := 1; TTEXT.data := [["7"; "CDS"]]%string |}).
  - reflexivity.
  - reflexivity.
  - reflexivity.
  - vm_compute. discriminate.
Defined.

(** X4: whatever the tree and whatever the state, a walk with
    [action_list] that returns has changed nothing but the table [vret]
    points to: the column table, [vret] itself, the number of tables and
    every other table are as before. *)
Theorem walk_touches_only_the_table_of_vret
    (t : tree) (s : state) (u : unit) (s' : state) :
  twalk t action_list s = Returns u s' →
  column s' = column s ∧
  vret s' = vret s ∧
  length (heap s') = length (heap s) ∧
  ∀ q, vret s ≠ Some q → heap s' !! q = heap s !! q.
Proof. intros H. exact (twalk_frame t s u s' H). Qed.

Lemma walk_touches_only_the_table_of_vret_witness :
  let other := {| TTEXT.size := 1; TTEXT.data := [["7"; "CDS"]]%string |} in
  let s := {| column := Collab.columns0; vret := Some 1%nat;
              heap := [ other; {| TTEXT.size := 0; TTEXT.data := [] |} ] |} in
  let s' := state_after (twalk Sample.feature_index action_list) s in
  column s' = column s ∧
  vret s' = vret s ∧
  length (heap s') = length (heap s) ∧
  ∀ q, vret s ≠ Some q → heap s' !! q = heap s !! q.
Proof.
  intros other s s'.
  apply (walk_touches_only_the_table_of_vret Sample.feature_index s () s').
  reflexivity.
Defined.

(** ** The shape of the index *)

Lemma bst_same_entries t1 t2 :
  bst t1 → bst t2 → inorder t1 ≡ₚ inorder t2 → inorder t1 = inorder t2.
Proof.
  intros H1 H2 Hperm.
  apply (StronglySorted_unique_strong lt_token);
    [|apply bst_inorder_sorted; assumption..|exact Hperm].
  intros x1 x2 _ _ Hlt Hgt. exfalso.
  exact (strcmp_irrefl _ (strcmp_trans _ _ _ Hlt Hgt)).
Qed.

(** X5: the table does not depend on the shape of the index. Two search
    trees that hold the same entries, however balanced, are walked to the
    same rows in the same order: from the same state the two walks have the
    same outcome, the rows of the entries in ascending order appended to
    the table of [vret]. *)
Theorem walk_independent_of_tree_shape
    (t1 t2 : tree) (s : state) (p : nat) (v : TTEXT.t) :
  bst t1 → bst t2 →
  inorder t1 ≡ₚ inorder t2 →
  vret s = Some p →
  heap s !! p = Some v →
  consistent v →
  fits v t1 →
  twalk t1 action_list s = twalk t2 action_list s ∧
  twalk t1 action_list s
  = Returns () (with_table p (grow v (row_of <$> inorder t1)) s).
Proof.
  intros H1 H2 Hperm Hp Hv Hc Hfit.
  pose proof (bst_same_entries t1 t2 H1 H2 Hperm) as Heq.
  rewrite (twalk_action_list t1 s p v Hp Hv Hc Hfit).
  rewrite (twalk_action_list t2 s p v Hp Hv Hc)
    by (unfold fits in *; rewrite <- Heq; exact Hfit).
  rewrite Heq. split; reflexivity.
Qed.

Lemma walk_independent_of_tree_shape_witness :
  let exon := {| ROW_LIST.token := "exon"; ROW_LIST.nb_row := 3 |} in
  let gene := {| ROW_LIST.token := "gene"; ROW_LIST.nb_row := 1 |} in
  let t1 := Node Null exon (Node Null gene Null) in
  let t2 := Node (Node Null exon Null) gene Null in
  let v := {| TTEXT.size := 0; TTEXT.data := [] |} in
  let s := {| column := []; vret := Some 0%nat; heap := [v] |} in
  twalk t1 action_list s = twalk t2 action_list s ∧
  twalk t1 action_list s
  = Returns () (with_table 0 (grow v (row_of <$> inorder t1)) s).
Proof.
  intros exon gene t1 t2 v s.
  apply (walk_independent_of_tree_shape t1 t2 s 0 v).
  - simpl. repeat split; repeat constructor.
  - simpl. repeat split; repeat constructor.
  - reflexivity.
  - reflexivity.
  - reflexivity.
  - reflexivity.
  - vm_compute. discriminate.
Defined.

(** ** The name list and its count *)

(** X6: [get_attribute_list] trusts the count [nb] of the string list it
    is given. With a count between zero and the length of the list it
    returns a table of [nb] rows, the first [nb] names one per row in their
    order, whatever names follow in the list; the column table is left as
    it was. *)
Theorem attribute_list_copies_first_nb
    (get_all_attributes : GTF_DATA.t → option STRING_LIST.t)
    (g : GTF_DATA.t) (s : state) (sl : STRING_LIST.t) :
  get_all_attributes g = Some sl →
  0 ≤ STRING_LIST.nb sl ≤ Z.of_nat (length (STRING_LIST.list sl)) →
  ∃ p s' T,
    get_attribute_list get_all_attributes g s = Returns (Some p) s' ∧
    heap s' !! p = Some T ∧
    TTEXT.size T = STRING_LIST.nb sl ∧
    TTEXT.data T
    = (λ name, [name]) <$>
      take (Z.to_nat (STRING_LIST.nb sl)) (STRING_LIST.list sl) ∧
    column s' = column s.
Proof.
  intros Hsl Hnb.
  eexists _, _, _. split; [apply attribute_list_returns; eassumption|].
  split; [apply after_call_lookup_new|].
  split; [|split; reflexivity].
  simpl. rewrite length_take. lia.
Qed.

Lemma attribute_list_copies_first_nb_witness :
  let names := λ _ : GTF_DATA.t,
    Some {| STRING_LIST.list := ["gene_id"; "exon_number"; "note"]%string;
            STRING_LIST.nb := 2 |} in
  ∃ p s' T,
    get_attribute_list names Sample.no_rows Collab.state0
    = Returns (Some p) s' ∧
    heap s' !! p = Some T ∧
    TTEXT.size T = 2 ∧
    TTEXT.data T
    = (λ name, [name]) <$>
      take (Z.to_nat 2) ["gene_id"; "exon_number"; "note"]%string ∧
    column s' = column Collab.state0.
Proof.
  intros names.
  apply (attribute_list_copies_first_nb names Sample.no_rows Collab.state0
           {| STRING_LIST.list := ["gene_id"; "exon_number"; "note"]%string;
              STRING_LIST.nb := 2 |}).
  - reflexivity.
  - simpl. lia.
Defined.

(** X7: [get_attribute_list] does not check the string list it is given.
    When [get_all_attributes] returns NULL, or a list whose count [nb]
    exceeds the names it holds, the function reads through NULL or past
    the end of the list: the call has no defined outcome and returns no
    table. *)
Theorem attribute_list_reads_unchecked
    (get_all_attributes : GTF_DATA.t → option STRING_LIST.t)
    (g : GTF_DATA.t) (s : state) :
  get_all_attributes g = None ∨
  (∃ sl, get_all_attributes g = Some sl ∧
         Z.of_nat (length (STRING_LIST.list sl)) < STRING_LIST.nb sl) →
  get_attribute_list get_all_attributes g s = Undefined.
Proof.
  intros Hbad.
  destruct (get_attribute_list get_all_attributes g s) as [r s'|] eqn:H;
    [|reflexivity].
  apply attribute_list_defined in H as (sl & Hsl & Hnb).
  destruct Hbad as [Hnull | (sl' & Hsl' & Hover)]; [congruence|].
  rewrite Hsl in Hsl'. injection Hsl' as <-. lia.
Qed.

Lemma attribute_list_reads_unchecked_witness :
  get_attribute_list
    (λ _, Some {| STRING_LIST.list := ["gene_id"]%string;
                  STRING_LIST.nb := 2 |})
    Sample.no_rows Collab.state0 = Undefined.
Proof.
  apply attribute_list_reads_unchecked.
  right. eexists. split; [reflexivity|]. simpl. lia.
Defined.

(** ** Calls in a row *)

(** X8: the entry points compose without reusing or touching one
    another's tables. After any sequence of calls that all return, the
    heap is the heap before followed by one new table per call; the
    pointers returned are the addresses of these tables in the order of
    the calls, so they are pairwise distinct. *)
Theorem calls_add_one_table_each
    (index_gtf : GTF_DATA.t → string → list COLUMN.t
                 → option INDEX_ID.t * list COLUMN.t)
    (get_all_attributes : GTF_DATA.t → option STRING_LIST.t)
    (l : list (entry * GTF_DATA.t)) :
  ∀ (s : state) (ps : list (option nat)) (s' : state),
    calls index_gtf get_all_attributes l s = Returns ps s' →
    ps = (λ k, Some (length (heap s) + k)%nat) <$> seq 0 (length l) ∧
    (∃ Ts, heap s' = heap s ++ Ts ∧ length Ts = length l) ∧
    NoDup ps.
Proof.
  assert (Hnd : ∀ n m,
            NoDup ((λ k, Some (n + k)%nat) <$> seq 0 m)).
  { intros n m. apply NoDup_fmap_2; [|apply NoDup_seq].
    intros a b [= Hab]. lia. }
  induction l as [|[e g] l IH]; intros s ps s' H.
  - injection H as <- <-. split; [reflexivity|]. split; [|constructor].
    exists []. rewrite app_nil_r. auto.
  - cbn [calls] in H.
    apply bind_inv in H as (p & s1 & Hcall & H).
    apply bind_inv in H as (ps' & s2 & Hrest & H).
    injection H as <- <-.
    apply call_inv in Hcall as (T & _ & -> & ->).
    apply IH in Hrest as (-> & (Ts & Hheap & Hlen) & _).
    assert (Hps : Some (length (heap s))
                  :: ((λ k, Some (length (heap (after_call
                         (columns_after index_gtf e g (column s)) T s))
                                  + k)%nat) <$> seq 0 (length l))
                  = (λ k, Some (length (heap s) + k)%nat)
                    <$> seq 0 (length ((e, g) :: l))).
    { simpl. rewrite Nat.add_0_r. f_equal.
      rewrite length_app. simpl.
      rewrite <- fmap_S_seq, <- list_fmap_compose.
      apply list_fmap_ext. intros _ k _. simpl. f_equal. lia. }
    rewrite Hps. split; [reflexivity|]. split; [|apply Hnd].
    exists (T :: Ts). split.
    + rewrite Hheap. simpl. rewrite <- app_assoc. reflexivity.
    + simpl. rewrite Hlen. reflexivity.
Qed.

Lemma calls_add_one_table_each_witness :
  let l := [(list_feature_values, Sample.genes);
            (list_attribute_names, Sample.genes);
            (list_feature_values, Sample.no_rows)] in
  let run := calls Collab.index_gtf Collab.get_all_attributes l in
  let ps := [Some 0%nat; Some 1%nat; Some 2%nat] in
  ps = (λ k, Some (length (heap Collab.state0) + k)%nat)
       <$> seq 0 (length l) ∧
  (∃ Ts, heap (state_after run Collab.state0) = heap Collab.state0 ++ Ts ∧
         length Ts = length l) ∧
  NoDup ps.
Proof.
  intros l run ps.
  apply (calls_add_one_table_each Collab.index_gtf Collab.get_all_attributes
           l Collab.state0 ps (state_after run Collab.state0)).
  reflexivity.
Defined.

(** ** Calls that do not overlap *)

(** X10: calls that are serialised are safe. Under a schedule in which the
    first call makes all its steps before the second makes any, once both
    have returned they hold two distinct tables: the first holds what its
    function returns when called alone, the second what its function
    returns when called in the state the first has left. *)
Theorem serialised_calls_are_isolated
    (index_gtf : GTF_DATA.t → string → list COLUMN.t
                 → option INDEX_ID.t * list COLUMN.t)
    (ga gb : GTF_DATA.t) (ka kb : string) (na nb : nat)
    (s s' : state) (pa pb : option nat) :
  interleave index_gtf (replicate na true ++ replicate nb false)
    (AtEntry ga ka) (AtEntry gb kb) s
  = Returns (Returned pa, Returned pb) s' →
  pa ≠ pb ∧
  is_Some (table_at s' pa) ∧
  table_at s' pa = alone index_gtf ga ka s ∧
  table_at s' pb
  = alone index_gtf gb kb
      (state_after (get_attribute_values_list index_gtf ga ka) s).
Proof.
  intros H.
  apply schedule_without_overlap in H as (s1 & Ha & Hb).
  unfold alone, state_after. rewrite Ha, Hb.
  pose proof (call_inv index_gtf (λ _, None) (list_attribute_values ka)
                ga s pa s1 Ha) as (Ta & _ & -> & ->).
  pose proof (call_inv index_gtf (λ _, None) (list_attribute_values kb)
                gb _ pb s' Hb) as (Tb & _ & -> & ->).
  rewrite !table_at_some.
  split; [|split; [|split; [|reflexivity]]].
  - simpl. rewrite length_app. simpl. intros [= Heq]. lia.
  - rewrite after_call_lookup_old
      by (simpl; rewrite length_app; simpl; lia).
    rewrite after_call_lookup_new. eauto.
  - apply after_call_lookup_old. simpl. rewrite length_app. simpl. lia.
Qed.

Lemma serialised_calls_are_isolated_witness :
  let a := AtEntry Sample.genes "feature" in
  let b := AtEntry Sample.genes "seqid" in
  let schedule := replicate 7 true ++ replicate 7 false in
  let s' := state_after (interleave Collab.index_gtf schedule a b)
              Collab.state0 in
  Some 0%nat ≠ Some 1%nat ∧
  is_Some (table_at s' (Some 0%nat)) ∧
  table_at s' (Some 0%nat)
  = alone Collab.index_gtf Sample.genes "feature" Collab.state0 ∧
  table_at s' (Some 1%nat)
  = alone Collab.index_gtf Sample.genes "seqid"
      (state_after
         (get_attribute_values_list Collab.index_gtf Sample.genes "feature")
         Collab.state0).
Proof.
  intros a b schedule s'.
  apply (serialised_calls_are_isolated Collab.index_gtf
           Sample.genes Sample.genes "feature" "seqid" 7 7
           Collab.state0 s' (Some 0%nat) (Some 1%nat)).
  reflexivity.
Defined.
